(** * ag-toolkit: the git operations of [GitOperations]

    A shallow embedding of the class [GitOperations] (the wrapper around
    [simple-git] shared by the [agbd] and [agrb] tools) and the proofs of
    its branch-inventory, cherry-pick and linear-rebase properties.

    The external [git] binary is a collaborator: every [simple-git] method
    the class calls is a command of type [Cmd], answered by the host
    ([exec]) with either an error message or a response, and changing the
    host's world.  The operations run in a small state-and-exception monad
    whose state carries the world together with the journal of the
    subprocess invocations made so far. *)

From Stdlib Require Import ZArith Lia Ascii.
From stdpp Require Import base list strings gmap pretty sorting.

Local Open Scope Z_scope.

(** ** JavaScript string primitives

    Strings are sequences of 8-bit code units; the primitives below are the
    [String.prototype] methods the class uses, restricted to the argument
    shapes that occur in it (single-character separators, literal
    patterns). *)
Module JS.

(** ECMAScript [WhiteSpace] and [LineTerminator] code units below 256. *)
Definition isWhiteSpace (c : ascii) : bool :=
  match c with
  | "009" | "010" | "011" | "012" | "013" | " " | "160" => true
  | _ => false
  end%char.

Definition isEmpty (s : string) : bool :=
  match s with EmptyString => true | String _ _ => false end.

(** [Boolean(s)] for a string: the empty string is the only falsy one. *)
Definition truthy (s : string) : bool := negb (isEmpty s).

Fixpoint trimStart (s : string) : string :=
  match s with
  | EmptyString => EmptyString
  | String c r => if isWhiteSpace c then trimStart r else s
  end.

Fixpoint trimEnd (s : string) : string :=
  match s with
  | EmptyString => EmptyString
  | String c r =>
      let r' := trimEnd r in
      if isEmpty r' && isWhiteSpace c then EmptyString else String c r'
  end.

Definition trim (s : string) : string := trimEnd (trimStart s).

(** [s.split(sep)] for a one-character separator. *)
Fixpoint split (sep : ascii) (s : string) : list string :=
  match s with
  | EmptyString => [EmptyString]
  | String c r =>
      if Ascii.eqb c sep then EmptyString :: split sep r
      else match split sep r with
           | h :: t => String c h :: t
           | [] => [String c EmptyString]
           end
  end.

(** [parts.join(sep)]. *)
Fixpoint join (sep : string) (parts : list string) : string :=
  match parts with
  | [] => EmptyString
  | [p] => p
  | p :: rest => p +:+ sep +:+ join sep rest
  end.

Fixpoint startsWith (s p : string) : bool :=
  match p, s with
  | EmptyString, _ => true
  | String _ _, EmptyString => false
  | String a p', String b s' => Ascii.eqb a b && startsWith s' p'
  end.

Fixpoint includes (s sub : string) : bool :=
  startsWith s sub ||
  match s with
  | EmptyString => false
  | String _ r => includes r sub
  end.

Fixpoint drop (n : nat) (s : string) : string :=
  match n, s with
  | O, _ => s
  | S _, EmptyString => EmptyString
  | S n', String _ r => drop n' r
  end.

Definition endsWith (s p : string) : bool :=
  (String.length p <=? String.length s)%nat &&
  String.eqb (drop (String.length s - String.length p) s) p.

(** [s.replace(/^p/, "")] for a literal [p]. *)
Definition stripPrefix (p s : string) : string :=
  if startsWith s p then drop (String.length p) s else s.

(** [s.replace(/c/g, "")]. *)
Fixpoint removeAll (c : ascii) (s : string) : string :=
  match s with
  | EmptyString => EmptyString
  | String a r => if Ascii.eqb a c then removeAll c r else String a (removeAll c r)
  end.

(** [s.replace(/c/g, d)]. *)
Fixpoint replaceAll (c d : ascii) (s : string) : string :=
  match s with
  | EmptyString => EmptyString
  | String a r => String (if Ascii.eqb a c then d else a) (replaceAll c d r)
  end.

(** [s.repeat(n)]. *)
Fixpoint repeat (s : string) (n : nat) : string :=
  match n with
  | O => EmptyString
  | S n' => s +:+ repeat s n'
  end.

(** [xs.includes(x)] on an array of strings. *)
Definition arrayIncludes (xs : list string) (x : string) : bool :=
  existsb (String.eqb x) xs.

(** [Array.prototype.sort(cmp)]: a stable sort; [cmp a b <= 0] keeps [a]
    in front of [b]. *)
Section Sort.
Context {A : Type} (cmp : A → A → Z).

Fixpoint insert_sorted (x : A) (l : list A) : list A :=
  match l with
  | [] => [x]
  | y :: t => if cmp x y <=? 0 then x :: y :: t else y :: insert_sorted x t
  end.

Fixpoint sort (l : list A) : list A :=
  match l with
  | [] => []
  | x :: t => insert_sorted x (sort t)
  end.

End Sort.

(** [s.replace(pat, rep)] for a literal string [pat]: the first occurrence. *)
Fixpoint replaceFirst (pat rep s : string) : string :=
  if startsWith s pat then rep +:+ drop (String.length pat) s
  else match s with
       | EmptyString => EmptyString
       | String c r => String c (replaceFirst pat rep r)
       end.

End JS.

(** ** The command port *)

(** [git.branch(..)] and [git.branchLocal()] answer with a summary of
    which only the field [all] is read. *)
Record BranchSummary := { all : list string }.

(** The [simple-git] methods called by the class, with their arguments. *)
Inductive Cmd :=
| Raw (args : list string)
| Checkout (args : list string)
| Fetch (args : list string)
| Revparse (args : list string)
| AddAnnotatedTag (tagName tagMessage : string)
| Push (args : list string)
| Branch (args : list string)
| BranchLocal
| Add (files : string).

Global Instance Cmd_eq_dec : EqDecision Cmd.
Proof. solve_decision. Defined.

(** What each method resolves to. *)
Definition Resp (c : Cmd) : Type :=
  match c with
  | Raw _ | Checkout _ | Revparse _ | Add _ => string
  | Fetch _ | AddAnnotatedTag _ _ | Push _ => unit
  | Branch _ | BranchLocal => BranchSummary
  end.

(** A journal entry: the command and whether it resolved. *)
Record Invocation := { inv_cmd : Cmd; inv_ok : bool }.

Global Instance Invocation_eq_dec : EqDecision Invocation.
Proof. solve_decision. Defined.

(** The host of one [GitOperations] instance: the repository behind the
    [simple-git] handle, the imported validator, and the runtime values the
    class reads ([process.pid], [Date.now()], [new Date(..)], [Number]). *)
Class Host := {
  World : Type;
  (** run one command: a rejection message or a response, and the world after *)
  exec : ∀ c : Cmd, World → (string + Resp c) * World;
  (** [isValidBranchName], imported from [lib/isValidBranchName] *)
  isValidBranchName : string → bool;
  (** [process.pid] *)
  pid : N;
  (** [Date.now()] *)
  Date_now : World → N;
  (** [new Date(s).getTime()], [None] when it is [NaN] *)
  Date_parse : string → option Z;
  (** JavaScript numbers as produced by [Number(s)], with the literal [0] *)
  number : Type;
  number_zero : number;
  Number : string → number
}.

(** ** The monad of the operations *)

Inductive Result (A : Type) :=
| Ok (a : A)
| Throw (message : string).
Global Arguments Ok {A} a.
Global Arguments Throw {A} message.

Section Monad.
Context `{H : Host}.

Record St := {
  world : World;
  journal : list Invocation;   (* subprocess invocations, oldest first *)
  reported : list string       (* messages handed to the progress callback *)
}.

Definition M (A : Type) : Type := St → Result A * St.

Definition ret {A} (a : A) : M A := λ s, (Ok a, s).

Definition throw {A} (message : string) : M A := λ s, (Throw message, s).

Definition bind {A B} (k : A → M B) (m : M A) : M B :=
  λ s, match m s with
       | (Ok a, s') => k a s'
       | (Throw e, s') => (Throw e, s')
       end.

Global Instance M_ret : MRet M := @ret.
Global Instance M_bind : MBind M := @bind.

(** [try { m } catch (error) { h error }]; [error.message] is the
    message of the thrown [Error]. *)
Definition try_catch {A} (m : M A) (h : string → M A) : M A :=
  λ s, match m s with
       | (Ok a, s') => (Ok a, s')
       | (Throw e, s') => h e s'
       end.

(** [await this.git.<method>(..)] *)
Definition call (c : Cmd) : M (Resp c) :=
  λ s, match exec c (world s) with
       | (inl e, w) =>
           (Throw e, {| world := w;
                        journal := journal s ++ [{| inv_cmd := c; inv_ok := false |}];
                        reported := reported s |})
       | (inr r, w) =>
           (Ok r, {| world := w;
                     journal := journal s ++ [{| inv_cmd := c; inv_ok := true |}];
                     reported := reported s |})
       end.

(** [progressCallback?.(message)]: the callback, when given, observes the
    message and returns nothing. *)
Definition report (progressCallback : bool) (message : string) : M unit :=
  λ s, (Ok tt,
        if progressCallback
        then {| world := world s; journal := journal s;
                reported := reported s ++ [message] |}
        else s).

(** [Date.now()] *)
Definition now : M N := λ s, (Ok (Date_now (world s)), s).

(** A promise run to its settlement, rejection included. *)
Definition settle {A} (m : M A) : M (Result A) :=
  λ s, (Ok (fst (m s)), snd (m s)).

(** [await Promise.all([a, b, c])]: the three are started whatever the
    others do, here in array order, and the first rejection in that order
    is the one thrown. *)
Definition promiseAll3 {A B C} (a : M A) (b : M B) (c : M C) : M (A * B * C) :=
  ra ← settle a; rb ← settle b; rc ← settle c;
  match ra, rb, rc with
  | Ok x, Ok y, Ok z => mret (x, y, z)
  | Throw e, _, _ | Ok _, Throw e, _ | Ok _, Ok _, Throw e => throw e
  end.

(** [await Promise.all(xs.map(f))], the calls issued in array order. *)
Fixpoint mapM {A B} (f : A → M B) (xs : list A) : M (list B) :=
  match xs with
  | [] => mret []
  | x :: rest => y ← f x; ys ← mapM f rest; mret (y :: ys)
  end.
End Monad.

(** ** Branch records *)

Module BranchType.
Inductive t := local | remote.
Definition eqb (a b : t) : bool :=
  match a, b with
  | local, local | remote, remote => true
  | _, _ => false
  end.
End BranchType.

(** [Omit<BranchInfo, "isMerged" | "ahead" | "behind">] *)
Record BranchEntry := {
  entry_ref : string;
  entry_name : string;
  entry_type : BranchType.t;
  entry_remote : option string;
  entry_lastCommitDate : option Z;       (* the [Date], as its time value *)
  entry_lastCommitSha : option string;
  entry_lastCommitSubject : option string
}.

Record BranchInfo `{H : Host} := {
  ref : string;
  name : string;
  type : BranchType.t;
  remote : option string;
  lastCommitDate : option Z;
  lastCommitSha : option string;
  lastCommitSubject : option string;
  isMerged : bool;
  ahead : number;
  behind : number
}.

Record AheadBehind `{H : Host} := { ab_ahead : number; ab_behind : number }.

Record BranchInfoOptions := { includeRemote : option bool }.
Record DeleteOptions := { force : option bool }.
Record CherryPickFinishOptions := { createBackup : option bool }.
Record LinearRebaseOptions := { continueOnConflict : option bool }.

(** [options?.field] read as a condition. *)
Definition flag {O} (field : O → option bool) (options : option O) : bool :=
  match options with
  | Some o => default false (field o)
  | None => false
  end.

Definition BRANCH_LIST_FORMAT : string :=
  "%(refname)%00%(committerdate:iso8601)%00%(objectname)%00%(contents:subject)".

Definition NUL : ascii := "000"%char.
Definition LF : ascii := "010"%char.
Definition TAB : ascii := "009"%char.

(** ** The operations of [GitOperations] *)
Section GitOperations.
Context `{H : Host}.

Definition fetchAll : M unit :=
  call (Fetch ["--all"]).

Definition parseBranchLine (line : string) (type : BranchType.t)
  : option BranchEntry :=
  let fields := JS.split NUL line in
  let ref := fields !! 0%nat in
  let dateStr := fields !! 1%nat in
  let sha := fields !! 2%nat in
  let subject := fields !! 3%nat in
  let shortRef :=
    default "" (JS.stripPrefix "refs/remotes/" <$> (JS.stripPrefix "refs/heads/" <$> ref)) in
  if JS.isEmpty shortRef || JS.endsWith shortRef "/HEAD" then None
  else
    let lastCommitDate :=
      match dateStr with
      | Some d => if JS.truthy d then Date_parse d else None
      | None => None
      end in
    let trimmedSubject := JS.trim <$> subject in
    let lastCommitSubject :=
      match trimmedSubject with
      | Some t => if JS.truthy t then Some t else None
      | None => None
      end in
    let lastCommitSha :=
      match sha with
      | Some h => if JS.truthy (JS.trim h) then Some (JS.trim h) else None
      | None => None
      end in
    match type with
    | BranchType.remote =>
        match JS.split "/" shortRef with
        | remote :: nameParts =>
            let name := JS.join "/" nameParts in
            if negb (JS.truthy remote && JS.truthy name) || String.eqb name "HEAD"
            then None
            else Some {| entry_ref := shortRef; entry_name := name;
                         entry_type := type; entry_remote := Some remote;
                         entry_lastCommitDate := lastCommitDate;
                         entry_lastCommitSha := lastCommitSha;
                         entry_lastCommitSubject := lastCommitSubject |}
        | [] => None
        end
    | BranchType.local =>
        Some {| entry_ref := shortRef; entry_name := shortRef;
                entry_type := type; entry_remote := None;
                entry_lastCommitDate := lastCommitDate;
                entry_lastCommitSha := lastCommitSha;
                entry_lastCommitSubject := lastCommitSubject |}
    end.

Definition listBranches (refPrefix : string) (type : BranchType.t)
  : M (list BranchEntry) :=
  output ← call (Raw ["for-each-ref";
                      "--format=" +:+
                        JS.replaceFirst "%(refname:short)" "%(refname)" BRANCH_LIST_FORMAT;
                      refPrefix]);
  mret (omap (λ line, parseBranchLine line type)
             (filter (λ line, Is_true (JS.truthy line))
                     (JS.trim <$> JS.split LF output))).

Definition getMergedSet (type : BranchType.t) : M (gset string) :=
  let args :=
    match type with
    | BranchType.local => ["branch"; "--merged"]
    | BranchType.remote => ["branch"; "-r"; "--merged"]
    end in
  output ← call (Raw args);
  let lines := (λ line, JS.trim (JS.removeAll "*" line)) <$> JS.split LF output in
  let filtered :=
    filter (λ name, Is_true (negb (JS.includes name " -> ")))
           (filter (λ name, Is_true (JS.truthy name)) lines) in
  mret (list_to_set filtered).

Definition defaultRemoteBranches : list string :=
  ["origin/main"; "origin/master"; "origin/develop"].

Definition defaultLocalBranches : list string :=
  ["main"; "master"; "develop"].

(** [for (const branch of candidates) if (present.includes(f branch)) return f branch] *)
Fixpoint firstIncluded (f : string → string) (candidates present : list string)
  : option string :=
  match candidates with
  | [] => None
  | branch :: rest =>
      if JS.arrayIncludes present (f branch) then Some (f branch)
      else firstIncluded f rest present
  end.

Definition getBaseBranch : M (option string) :=
  remoteBranches ← call (Branch ["-r"]);
  match firstIncluded JS.trim defaultRemoteBranches (all remoteBranches) with
  | Some branch => mret (Some branch)
  | None =>
      localBranches ← call BranchLocal;
      match firstIncluded id defaultLocalBranches (all localBranches) with
      | Some branch => mret (Some branch)
      | None => mret None
      end
  end.

Definition zeroAheadBehind : AheadBehind :=
  {| ab_ahead := number_zero; ab_behind := number_zero |}.

Definition getAheadBehind (branch base : string) : M AheadBehind :=
  if String.eqb branch base then mret zeroAheadBehind
  else
    try_catch
      (result ← call (Raw ["rev-list"; "--left-right"; "--count";
                           base +:+ "..." +:+ branch]);
       let counts := Number <$> JS.split TAB (JS.trim result) in
       let behind := counts !! 0%nat in
       let ahead := counts !! 1%nat in
       mret {| ab_ahead := default number_zero ahead;
               ab_behind := default number_zero behind |})
      (λ _, mret zeroAheadBehind).

Definition time_of (lastCommitDate : option Z) : Z := default 0 lastCommitDate.

(** The comparator handed to [sort]; only its sign is used, and on time
    values the sign of the floating-point difference is that of the exact
    one. *)
Definition compareBranches (a b : BranchInfo) : Z :=
  if negb (BranchType.eqb (type a) (type b)) then
    match type a with BranchType.local => -1 | BranchType.remote => 1 end
  else
    let dateA := time_of (lastCommitDate a) in
    let dateB := time_of (lastCommitDate b) in
    dateB - dateA.

(** [Promise.all([getMergedSet("local"), .., getBaseBranch()])]: the three
    read-only queries. *)
Definition inventoryInputs (includeRemote : bool)
  : M (gset string * gset string * option string) :=
  promiseAll3
    (getMergedSet BranchType.local)
    (if includeRemote then getMergedSet BranchType.remote else mret ∅)
    getBaseBranch.

(** The callback mapped over [allBranches]. *)
Definition withCommitCount (localMerged remoteMerged : gset string)
    (baseBranch : option string) (branch : BranchEntry) : M BranchInfo :=
  counts ← match baseBranch with
           | Some base =>
               if JS.truthy base
               then getAheadBehind (entry_ref branch) base
               else mret zeroAheadBehind
           | None => mret zeroAheadBehind
           end;
  let isMerged :=
    match entry_type branch with
    | BranchType.local => bool_decide (entry_ref branch ∈ localMerged)
    | BranchType.remote => bool_decide (entry_ref branch ∈ remoteMerged)
    end in
  mret {| ref := entry_ref branch; name := entry_name branch;
          type := entry_type branch; remote := entry_remote branch;
          lastCommitDate := entry_lastCommitDate branch;
          lastCommitSha := entry_lastCommitSha branch;
          lastCommitSubject := entry_lastCommitSubject branch;
          isMerged := isMerged;
          ahead := ab_ahead counts; behind := ab_behind counts |}.

Definition getBranchInfos (options : option BranchInfoOptions)
  : M (list BranchInfo) :=
  let includeRemote := flag includeRemote options in
  inputs ← inventoryInputs includeRemote;
  let '(localMerged, remoteMerged, baseBranch) := inputs in
  localBranches ← listBranches "refs/heads/" BranchType.local;
  remoteBranches ← (if includeRemote
                    then listBranches "refs/remotes/" BranchType.remote
                    else mret []);
  let allBranches := localBranches ++ remoteBranches in
  withCommitCounts ←
    mapM (withCommitCount localMerged remoteMerged baseBranch) allBranches;
  mret (JS.sort compareBranches withCommitCounts).

(** The messages of the errors the class throws. *)
Definition InvalidReference (branch : string) : string :=
  "Invalid branch name: " +:+ branch.

Definition TargetNotFound (targetBranch : string) : string :=
  "Target branch '" +:+ targetBranch +:+ "' does not exist".

Definition BackupFailed (message : string) : string :=
  "Failed to create backup tag: " +:+ message.

Definition RebaseFailed (message : string) : string :=
  "Linear rebase failed: " +:+ message.

Definition RebaseContinueFailed (message : string) : string :=
  "Linear rebase failed during continue: " +:+ message.

Definition deleteLocalBranch (branch : string) (options : option DeleteOptions)
  : M unit :=
  if negb (isValidBranchName branch) then throw (InvalidReference branch)
  else
    let args := ["branch"; if flag force options then "-D" else "-d"; branch] in
    call (Raw args);; mret tt.

Definition deleteRemoteBranch (remote name : string) : M unit :=
  if negb (isValidBranchName name) then throw (InvalidReference name)
  else call (Push [remote; "--delete"; name]).

Definition showRef (refname : string) : Cmd :=
  Raw ["show-ref"; "--verify"; "--quiet"; refname].

Definition branchExists (branch : string) : M bool :=
  if negb (isValidBranchName branch) then throw (InvalidReference branch)
  else
    try_catch
      (call (showRef ("refs/remotes/origin/" +:+ branch));; mret true)
      (λ _, try_catch
              (call (showRef ("refs/heads/" +:+ branch));; mret true)
              (λ _, mret false)).

Definition resolveBranchRef (branch : string) : M string :=
  try_catch
    (call (showRef ("refs/remotes/origin/" +:+ branch));;
     mret ("origin/" +:+ branch))
    (λ _, mret branch).

Definition tempBranchName : string := "temp-rebase-" +:+ pretty pid.

Definition setupCherryPick (targetBranch : string) : M string :=
  if negb (isValidBranchName targetBranch)
  then throw (InvalidReference targetBranch)
  else
    checkoutTarget ← resolveBranchRef targetBranch;
    call (Checkout ["-b"; tempBranchName; checkoutTarget]);;
    mret tempBranchName.

Definition getMergeBase (branch1 branch2 : string) : M string :=
  if negb (isValidBranchName branch1) then throw (InvalidReference branch1)
  else if negb (isValidBranchName branch2) then throw (InvalidReference branch2)
  else
    baseBranch ← resolveBranchRef branch1;
    result ← call (Raw ["merge-base"; baseBranch; branch2]);
    mret (JS.trim result).

Definition getCommitsToCherryPick (from to : string) : M (list string) :=
  result ← call (Raw ["rev-list"; "--reverse"; "--no-merges";
                      from +:+ ".." +:+ to]);
  mret (filter (λ line, Is_true (JS.truthy line))
               (JS.split LF (JS.trim result))).

Definition backupTagName (currentBranch : string) (timestamp : N) : string :=
  let safeBranch := JS.replaceAll "/" "-" currentBranch in
  "agrb-backup-" +:+ safeBranch +:+ "-" +:+ pretty timestamp.

Definition backupTagMessage (currentBranch currentSha : string) : string :=
  "Backup before agrb reset: " +:+ currentBranch +:+ " @ " +:+ currentSha.

Definition finishCherryPick (currentBranch tempBranchName : string)
    (options : option CherryPickFinishOptions) : M unit :=
  call (Checkout [currentBranch]);;
  (if flag createBackup options then
     try_catch
       (revision ← call (Revparse [currentBranch]);
        let currentSha := JS.trim revision in
        timestamp ← now;
        call (AddAnnotatedTag (backupTagName currentBranch timestamp)
                              (backupTagMessage currentBranch currentSha)))
       (λ error, throw (BackupFailed error))
   else mret tt);;
  call (Raw ["reset"; "--hard"; tempBranchName]);; mret tt.

(** The [try] block of [performLinearRebase]. *)
Definition linearRebaseAttempt (currentBranch targetBranch : string)
    (progressCallback : bool) (options : option LinearRebaseOptions) : M unit :=
  report progressCallback "Fetching all branches...";;
  fetchAll;;
  report progressCallback "Checking if target branch exists...";;
  found ← branchExists targetBranch;
  if negb found then throw (TargetNotFound targetBranch)
  else
    report progressCallback "Starting linear rebase...";;
    call (Checkout [currentBranch]);;
    rebaseTarget ← resolveBranchRef targetBranch;
    let rebaseArgs :=
      ["rebase"; rebaseTarget] ++
      (if flag continueOnConflict options then ["-X"; "ours"] else []) in
    call (Raw rebaseArgs);;
    report progressCallback "Linear rebase completed successfully".

(** [try { await this.git.raw(["rebase", "--abort"]) } catch {}] *)
Definition abortRebase : M unit :=
  try_catch (call (Raw ["rebase"; "--abort"]);; mret tt) (λ _, mret tt).

(** The [catch (error)] block of [performLinearRebase]. *)
Definition linearRebaseRecover (progressCallback : bool)
    (options : option LinearRebaseOptions) (error : string) : M unit :=
  if flag continueOnConflict options then
    try_catch
      (report progressCallback "Conflicts detected, auto-resolving and continuing...";;
       call (Checkout ["--ours"; "."]);;
       call (Add ".");;
       call (Raw ["rebase"; "--continue"]);;
       report progressCallback "Linear rebase completed with conflicts auto-resolved")
      (λ e, abortRebase;; throw (RebaseContinueFailed e))
  else
    abortRebase;; throw (RebaseFailed error).

Definition performLinearRebase (currentBranch targetBranch : string)
    (progressCallback : bool) (options : option LinearRebaseOptions) : M unit :=
  if negb (isValidBranchName targetBranch)
  then throw (InvalidReference targetBranch)
  else
    try_catch
      (linearRebaseAttempt currentBranch targetBranch progressCallback options)
      (linearRebaseRecover progressCallback options).

Definition pushWithLease (branch : string) : M unit :=
  call (Push ["-u"; "origin"; branch; "--force-with-lease"]).

End GitOperations.

(** ** The branch-name validator *)

(** Modelled from the spec: the validator [isValidBranchName] is imported
    from [lib/isValidBranchName], which is not among the sources; only its
    test suite is.  The rules are those of the specification (non-empty, no
    doubled separator, no leading or trailing separator, no segment
    starting with a dot or ending in [.lock], no trailing dot, no [..],
    only safe characters), with the safe set that the test suite and the
    rules agree on: letters, digits, [/], [_], [.] and [-].  The operations
    above take the validator from the host; this model serves the concrete
    repositories below. *)
Module Validator.

Definition isSafeChar (c : ascii) : bool :=
  let n := nat_of_ascii c in
  ((48 <=? n) && (n <=? 57))%nat || ((65 <=? n) && (n <=? 90))%nat ||
  ((97 <=? n) && (n <=? 122))%nat ||
  match c with
  | "/" | "_" | "." | "-" => true
  | _ => false
  end%char.

Fixpoint allChars (p : ascii → bool) (s : string) : bool :=
  match s with
  | EmptyString => true
  | String c r => p c && allChars p r
  end.

Definition segmentOk (segment : string) : bool :=
  negb (JS.startsWith segment ".") && negb (JS.endsWith segment ".lock").

Definition isValidBranchName (name : string) : bool :=
  JS.truthy name &&
  allChars isSafeChar name &&
  negb (JS.includes name "//") &&
  negb (JS.startsWith name "/") &&
  negb (JS.endsWith name "/") &&
  negb (JS.includes name "..") &&
  forallb segmentOk (JS.split "/" name) &&
  negb (JS.endsWith name ".").

End Validator.

(** ** A concrete repository

    A small repository that answers the commands of the class, used to run
    the operations on explicit inputs. *)
Module Fixture.

(** One ref with the commit it points to. *)
Record RefRow := {
  row_ref : string;        (* full name, [refs/heads/..] or [refs/remotes/..] *)
  row_sha : string;
  row_date : string;       (* committer date as [for-each-ref] prints it *)
  row_subject : string
}.

Record Repo := {
  rows : list RefRow;
  head : string;                    (* the checked-out local branch *)
  merged : list string;             (* short names [branch --merged] lists *)
  clock : N;
  tagsWritable : bool;              (* whether [git tag] can write *)
  conflicting : bool;               (* whether a rebase stops on a conflict *)
  resumable : bool;                 (* whether [rebase --continue] goes through *)
  counts : option string;           (* answer of [rev-list --left-right --count] *)
  range : string                    (* answer of [rev-list --reverse --no-merges] *)
}.

Definition lookupRef (refname : string) (w : Repo) : option RefRow :=
  List.find (λ r, String.eqb (row_ref r) refname) (rows w).

Definition setRows (w : Repo) (rs : list RefRow) : Repo :=
  {| rows := rs; head := head w; merged := merged w; clock := clock w;
     tagsWritable := tagsWritable w; conflicting := conflicting w;
     resumable := resumable w; counts := counts w; range := range w |}.

Definition setHead (w : Repo) (b : string) : Repo :=
  {| rows := rows w; head := b; merged := merged w; clock := clock w;
     tagsWritable := tagsWritable w; conflicting := conflicting w;
     resumable := resumable w; counts := counts w; range := range w |}.

(** The commit a local branch points to. *)
Definition tip (w : Repo) (branch : string) : option string :=
  row_sha <$> lookupRef ("refs/heads/" +:+ branch) w.

Definition shortNames (prefix : string) (w : Repo) : list string :=
  omap (λ r, if JS.startsWith (row_ref r) prefix
             then Some (JS.stripPrefix prefix (row_ref r)) else None) (rows w).

Definition listing (names : list string) : string :=
  foldr (λ n acc, "  " +:+ n +:+ String LF acc) "" names.

Definition forEachRef (prefix : string) (w : Repo) : string :=
  foldr (λ r acc,
           if JS.startsWith (row_ref r) prefix
           then row_ref r +:+ String NUL (row_date r) +:+ String NUL (row_sha r)
                +:+ String NUL (row_subject r) +:+ String LF acc
           else acc) "" (rows w).

Definition point (refname : string) (target : RefRow) (w : Repo) : Repo :=
  setRows w
    ({| row_ref := refname; row_sha := row_sha target;
        row_date := row_date target; row_subject := row_subject target |}
     :: List.filter (λ r, negb (String.eqb (row_ref r) refname)) (rows w)).

(** What a [git] process leaves behind. *)
Record Process := {
  exitCode : Z;
  stdOut : string;
  stdErr : string
}.

Definition succeeded (out : string) : Process :=
  {| exitCode := 0; stdOut := out; stdErr := "" |}.

Definition failed (code : Z) (err : string) : Process :=
  {| exitCode := code; stdOut := ""; stdErr := err |}.

(** How the promise of [git.raw] settles: it rejects only when the process
    ends with a non-zero exit code and has written to standard error, with
    what was written as the message; a process that fails without a word
    resolves like one that went through. *)
Definition settled (p : Process) : string + string :=
  if negb (exitCode p =? 0) && negb (String.eqb (stdErr p) "")
  then inl (stdOut p +:+ stdErr p)
  else inr (stdOut p).

(** Whether [rev] names a commit: a remote-tracking or a local branch. *)
Definition known (rev : string) (w : Repo) : bool :=
  bool_decide (is_Some (lookupRef ("refs/remotes/" +:+ rev) w)) ||
  bool_decide (is_Some (lookupRef ("refs/heads/" +:+ rev) w)).

(** [show-ref --verify --quiet] tells by its exit code alone whether the
    ref is there: it prints nothing either way. *)
Definition process (args : list string) (w : Repo) : Process * Repo :=
  match args with
  | ["show-ref"; "--verify"; "--quiet"; refname] =>
      match lookupRef refname w with
      | Some _ => (succeeded "", w)
      | None => ({| exitCode := 1; stdOut := ""; stdErr := "" |}, w)
      end
  | ["reset"; "--hard"; rev] =>
      match lookupRef ("refs/heads/" +:+ rev) w with
      | Some target => (succeeded "", point ("refs/heads/" +:+ head w) target w)
      | None => (failed 128 "fatal: ambiguous argument: unknown revision", w)
      end
  | ["rev-list"; "--reverse"; "--no-merges"; _] => (succeeded (range w), w)
  | ["rev-list"; "--left-right"; "--count"; _] =>
      match counts w with
      | Some out => (succeeded out, w)
      | None => (failed 128 "fatal: bad revision", w)
      end
  | ["rebase"; "--abort"] => (failed 128 "fatal: No rebase in progress?", w)
  | ["rebase"; "--continue"] =>
      if resumable w then (succeeded "", w)
      else (failed 128 "fatal: No rebase in progress?", w)
  | "rebase" :: upstream :: _ =>
      if negb (known upstream w)
      then (failed 128 ("fatal: invalid upstream '" +:+ upstream +:+ "'"), w)
      else if conflicting w then (failed 1 "CONFLICT (content): Merge conflict", w)
      else (succeeded "", w)
  | ["branch"; "--merged"] =>
      (succeeded (listing (List.filter (λ n, negb (JS.includes n "/")) (merged w))), w)
  | ["branch"; "-r"; "--merged"] =>
      (succeeded (listing (List.filter (λ n, JS.includes n "/") (merged w))), w)
  | ["for-each-ref"; _; prefix] => (succeeded (forEachRef prefix w), w)
  | _ => (failed 1 "git: unsupported command", w)
  end.

Definition raw (args : list string) (w : Repo) : (string + string) * Repo :=
  (settled (fst (process args w)), snd (process args w)).

Definition checkout (args : list string) (w : Repo) : (string + string) * Repo :=
  match args with
  | [branch] =>
      match lookupRef ("refs/heads/" +:+ branch) w with
      | Some _ => (inr "", setHead w branch)
      | None => (inl "error: pathspec did not match", w)
      end
  | ["-b"; branch; start] =>
      match lookupRef ("refs/heads/" +:+ branch) w,
            lookupRef ("refs/remotes/" +:+ start) w,
            lookupRef ("refs/heads/" +:+ start) w with
      | Some _, _, _ => (inl "fatal: a branch with that name already exists", w)
      | None, Some target, _ | None, None, Some target =>
          (inr "", setHead (point ("refs/heads/" +:+ branch) target w) branch)
      | None, None, None => (inl "fatal: not a valid object name", w)
      end
  | ["--ours"; "."] => (inr "", w)
  | _ => (inl "git: unsupported command", w)
  end.

Definition run (c : Cmd) (w : Repo) : (string + Resp c) * Repo :=
  match c return (string + Resp c) * Repo with
  | Raw args => raw args w
  | Checkout args => checkout args w
  | Fetch _ => (inr tt, w)
  | Revparse args =>
      match args with
      | [rev] =>
          match lookupRef ("refs/heads/" +:+ rev) w with
          | Some r => (inr (row_sha r +:+ String LF ""), w)
          | None => (inl "fatal: unknown revision", w)
          end
      | _ => (inl "git: unsupported command", w)
      end
  | AddAnnotatedTag tagName _ =>
      match tagsWritable w, lookupRef ("refs/heads/" +:+ head w) w with
      | true, Some target => (inr tt, point ("refs/tags/" +:+ tagName) target w)
      | _, _ => (inl "fatal: unable to write tag", w)
      end
  | Push _ => (inr tt, w)
  | Branch _ => (inr {| all := shortNames "refs/remotes/" w |}, w)
  | BranchLocal => (inr {| all := shortNames "refs/heads/" w |}, w)
  | Add _ => (inr "", w)
  end.

(** The committer dates this repository uses, with their time values. *)
Definition dates : list (string * Z) :=
  [("2024-05-01 12:00:00 +0000", 1714564800000);
   ("2024-05-03 12:00:00 +0000", 1714737600000);
   ("2024-04-20 12:00:00 +0000", 1713614400000)].

Definition parseDate (s : string) : option Z :=
  snd <$> List.find (λ d, String.eqb (fst d) s) dates.

Fixpoint digits (acc : Z) (s : string) : option Z :=
  match s with
  | EmptyString => Some acc
  | String c r =>
      match Ascii.is_nat c with
      | Some d => digits (10 * acc + Z.of_nat d) r
      | None => None
      end
  end.

(** [Number(s)] on decimal numerals; [None] is [NaN]. *)
Definition parseNumber (s : string) : option Z := digits 0 (JS.trim s).

#[export] Instance host : Host := {|
  World := Repo;
  exec := run;
  isValidBranchName := Validator.isValidBranchName;
  pid := 4242;
  Date_now := clock;
  Date_parse := parseDate;
  number := option Z;
  number_zero := Some 0;
  Number := parseNumber
|}.

Definition row (refname sha date subject : string) : RefRow :=
  {| row_ref := refname; row_sha := sha; row_date := date; row_subject := subject |}.

(** [main] and [feature] locally, [origin/main] and [upstream/topic]
    remotely; [feature] is two commits ahead of [main]. *)
Definition repo : Repo := {|
  rows := [row "refs/heads/main" "a1a1a1a" "2024-05-01 12:00:00 +0000" "base";
           row "refs/heads/feature" "c3c3c3c" "2024-05-03 12:00:00 +0000" "second";
           row "refs/heads/stale" "0d0d0d0" "" "undated";
           row "refs/remotes/origin/main" "a1a1a1a" "2024-05-01 12:00:00 +0000" "base";
           row "refs/remotes/origin/HEAD" "a1a1a1a" "2024-05-01 12:00:00 +0000" "base";
           row "refs/remotes/upstream/topic" "e5e5e5e" "2024-04-20 12:00:00 +0000" "topic"];
  head := "feature";
  merged := ["main"; "origin/main"; "origin/HEAD -> origin/main"];
  clock := 1714800000000;
  tagsWritable := true;
  conflicting := false;
  resumable := false;
  counts := Some ("0" +:+ String TAB "2" +:+ String LF "");
  range := "b2b2b2b" +:+ String LF "c3c3c3c" +:+ String LF ""
|}.

(** Variants of [repo]. *)
Definition unreadable : Repo :=
  {| rows := rows repo; head := head repo; merged := merged repo;
     clock := clock repo; tagsWritable := true; conflicting := false;
     resumable := false; counts := None; range := range repo |}.

Definition readonlyTags : Repo :=
  {| rows := rows repo; head := head repo; merged := merged repo;
     clock := clock repo; tagsWritable := false; conflicting := false;
     resumable := false; counts := counts repo; range := range repo |}.


(** No branch of the default names, locally or under [origin]. *)
Definition unconventional : Repo :=
  {| rows := [row "refs/heads/feature" "c3c3c3c" "2024-05-03 12:00:00 +0000" "second";
              row "refs/heads/trunk" "a1a1a1a" "2024-05-01 12:00:00 +0000" "base";
              row "refs/remotes/origin/trunk" "a1a1a1a" "2024-05-01 12:00:00 +0000" "base"];
     head := "feature"; merged := ["trunk"; "origin/trunk"];
     clock := clock repo; tagsWritable := true; conflicting := false;
     resumable := false; counts := counts repo; range := range repo |}.

Definition start (w : Repo) : St :=
  {| world := w; journal := []; reported := [] |}.

Definition record (ref name : string) (type : BranchType.t)
    (remote : option string) (date : option Z) (sha subject : string)
    (isMerged : bool) (ahead behind : Z) : BranchInfo :=
  {| ref := ref; name := name; type := type; remote := remote;
     lastCommitDate := date; lastCommitSha := Some sha;
     lastCommitSubject := Some subject; isMerged := isMerged;
     ahead := Some ahead; behind := Some behind |}.

(** The inventory of [repo], remote branches included. *)
Definition inventory : list BranchInfo :=
  [record "feature" "feature" BranchType.local None (Some 1714737600000)
          "c3c3c3c" "second" false 2 0;
   record "main" "main" BranchType.local None (Some 1714564800000)
          "a1a1a1a" "base" true 2 0;
   record "stale" "stale" BranchType.local None None
          "0d0d0d0" "undated" false 2 0;
   record "origin/main" "main" BranchType.remote (Some "origin") (Some 1714564800000)
          "a1a1a1a" "base" true 0 0;
   record "upstream/topic" "topic" BranchType.remote (Some "upstream")
          (Some 1713614400000) "e5e5e5e" "topic" false 2 0].

(** The inventory of [unconventional], local branches only. *)
Definition unconventionalInventory : list BranchInfo :=
  [record "feature" "feature" BranchType.local None (Some 1714737600000)
          "c3c3c3c" "second" false 0 0;
   record "trunk" "trunk" BranchType.local None (Some 1714564800000)
          "a1a1a1a" "base" true 0 0].

End Fixture.
(** ** Further string primitives

    The [String.prototype] methods and the two regular expressions used by
    the operations below, on the same 8-bit code units. *)
Module Text.

(** ECMAScript [LineTerminator] code units below 256: what [.] in a
    regular expression does not match. *)
Definition isLineTerminator (c : ascii) : bool :=
  match c with
  | "010" | "013" => true
  | _ => false
  end%char.

(** The longest prefix without a line terminator: what a greedy [.+] or
    [.*] takes. *)
Fixpoint takeLine (s : string) : string :=
  match s with
  | EmptyString => EmptyString
  | String c r => if isLineTerminator c then EmptyString else String c (takeLine r)
  end.

(** [\s*(.+)] matched at the start of [s]: the capture.  The greedy [\s*]
    takes the longest run of white space after which [.+] can still match,
    giving characters back when the run reaches the end of the text. *)
Fixpoint spacesThenLine (s : string) : option string :=
  match s with
  | EmptyString => None
  | String c r =>
      if JS.isWhiteSpace c then
        match spacesThenLine r with
        | Some captured => Some captured
        | None => if isLineTerminator c then None else Some (takeLine s)
        end
      else Some (takeLine s)
  end.

(** [s.match(/HEAD branch:\s*(.+)/)?.[1]]: the capture of the leftmost
    match. *)
Fixpoint matchHeadBranch (s : string) : option string :=
  match (if JS.startsWith s "HEAD branch:"
         then spacesThenLine (JS.drop 12 s) else None) with
  | Some captured => Some captured
  | None =>
      match s with
      | EmptyString => None
      | String _ r => matchHeadBranch r
      end
  end.

(** [toLowerCase] on one code unit: the Latin capitals [A]-[Z] and, in the
    Latin-1 range, [192]-[222] except the multiplication sign. *)
Definition toLowerChar (c : ascii) : ascii :=
  let n := nat_of_ascii c in
  if ((65 <=? n) && (n <=? 90))%nat ||
     ((192 <=? n) && (n <=? 222) && negb (n =? 215))%nat
  then ascii_of_nat (n + 32) else c.

Fixpoint toLowerCase (s : string) : string :=
  match s with
  | EmptyString => EmptyString
  | String c r => String (toLowerChar c) (toLowerCase r)
  end.

(** [s.split(/\s+/)]: the pieces between the maximal runs of white space;
    [inRun] tells that the previous code unit was white space. *)
Fixpoint splitWhiteSpaceFrom (inRun : bool) (s : string) : list string :=
  match s with
  | EmptyString => [EmptyString]
  | String c r =>
      if JS.isWhiteSpace c then
        if inRun then splitWhiteSpaceFrom true r
        else EmptyString :: splitWhiteSpaceFrom true r
      else match splitWhiteSpaceFrom false r with
           | h :: t => String c h :: t
           | [] => [String c EmptyString]
           end
  end.

Definition splitWhiteSpace (s : string) : list string :=
  splitWhiteSpaceFrom false s.

(** [s.lastIndexOf(c)], [None] for [-1]. *)
Fixpoint lastIndexOf (c : ascii) (s : string) : option nat :=
  match s with
  | EmptyString => None
  | String a r =>
      match lastIndexOf c r with
      | Some i => Some (S i)
      | None => if Ascii.eqb a c then Some O else None
      end
  end.

Fixpoint take (n : nat) (s : string) : string :=
  match n, s with
  | O, _ => EmptyString
  | S _, EmptyString => EmptyString
  | S n', String c r => String c (take n' r)
  end.

(** [s.slice(from, to)] for indices within the string. *)
Definition slice (from to : nat) (s : string) : string :=
  take (to - from) (JS.drop from s).

End Text.

(** ** Further operations of [GitOperations] *)

Record CherryPickOptions := { allowEmpty : option bool }.

Inductive ConflictStrategy := ours | theirs.

Section MoreGitOperations.
Context `{H : Host}.

Definition getAllBranches : M (list string) :=
  branches ← call (Branch ["-r"]);
  mret (JS.replaceFirst "origin/" "" <$>
        filter (λ branch, Is_true (JS.startsWith branch "origin/" &&
                                   negb (JS.includes branch "HEAD")))
               (all branches)).

Definition getLocalBranches : M (list string) :=
  branches ← call (Branch ["-l"]);
  mret (JS.replaceFirst "* " "" <$>
        filter (λ branch, Is_true (negb (JS.includes branch "HEAD")))
               (all branches)).

(** [error instanceof Error && error.message.includes("No such remote")] *)
Definition isNoSuchRemote (message : string) : bool :=
  JS.includes message "No such remote".

Definition detectDefaultBranch (remote : option string) : M (option string) :=
  let remote := default "origin" remote in
  found ← try_catch
            (remoteInfo ← call (Raw ["remote"; "show"; remote]);
             mret (match Text.matchHeadBranch remoteInfo with
                   | Some captured =>
                       if JS.truthy captured then Some captured else None
                   | None => None
                   end))
            (λ error, if isNoSuchRemote error then throw error else mret None);
  match found with
  | Some captured => mret (Some (JS.trim captured))
  | None =>
      try_catch
        (call (Raw ["remote"; "set-head"; remote; "--auto"]);;
         symbolicRef ← call (Raw ["symbolic-ref";
                                  "refs/remotes/" +:+ remote +:+ "/HEAD"]);
         let ref := JS.trim symbolicRef in
         if JS.isEmpty ref then mret None
         else mret (last (JS.split "/" ref)))
        (λ error, if isNoSuchRemote error then throw error else mret None)
  end.

Definition cherryPick (commitSha : string) (options : option CherryPickOptions)
  : M unit :=
  let args :=
    ["cherry-pick"] ++
    (if flag allowEmpty options then ["--allow-empty"] else []) ++
    [commitSha] in
  call (Raw args);; mret tt.

Definition continueCherryPick : M unit :=
  call (Raw ["cherry-pick"; "--continue"]);; mret tt.

Definition skipCherryPick : M unit :=
  call (Raw ["cherry-pick"; "--skip"]);; mret tt.

Definition abortCherryPick : M unit :=
  try_catch (call (Raw ["cherry-pick"; "--abort"]);; mret tt) (λ _, mret tt).

Definition resolveConflictWithStrategy (strategy : ConflictStrategy) : M unit :=
  call (Checkout [match strategy with ours => "--ours" | theirs => "--theirs" end;
                  "."]);;
  call (Add ".");; mret tt.

Definition getCommitSubject (sha : string) : M string :=
  out ← call (Raw ["show"; "-s"; "--format=%s"; sha]);
  mret (JS.trim out).

Definition stashLabel : string := "agrb-" +:+ pretty pid.

Definition startAutostash : M (option string) :=
  let label := stashLabel in
  call (Raw ["stash"; "push"; "-u"; "-m"; label]);;
  list ← call (Raw ["stash"; "list"; "--format=%gd %gs"]);
  let line := List.find (λ l, JS.includes l label)
                        (JS.trim <$> JS.split LF list) in
  match line with
  | None => mret None
  | Some line =>
      if JS.isEmpty line then mret None
      else
        match JS.split " " line !! 0%nat with
        | Some ref => mret (if JS.truthy ref then Some ref else None)
        | None => mret None
        end
  end.

Definition popStash (stashRef : string) : M unit :=
  call (Raw ["stash"; "pop"; stashRef]);; mret tt.

End MoreGitOperations.

(** ** The search filter

    [useSearchFilter] of the hooks: the items whose searchable string
    fields contain every word of the search term, compared in lower case.
    [useMemo] hands back the value computed from its dependencies, which are
    all three arguments. *)

(** The values a field of an item may hold. *)
Inductive FieldValue :=
| VString (value : string)
| VNumber (value : Z)
| VBoolean (value : bool)
| VNull
| VUndefined.

(** [typeof value === "string" ? value.toLowerCase().includes(term) : false]
    for [value = item[field]]. *)
Definition fieldMatches (item : gmap string FieldValue) (term field : string) : bool :=
  match item !! field with
  | Some (VString value) => JS.includes (Text.toLowerCase value) term
  | _ => false
  end.

(** [terms.every((term) => searchableFields.some(..))] *)
Definition itemMatches (searchableFields terms : list string)
    (item : gmap string FieldValue) : bool :=
  forallb (λ term, existsb (fieldMatches item term) searchableFields) terms.

Definition searchTerms (searchTerm : string) : list string :=
  List.filter (λ term, (0 <? String.length term)%nat)
              (Text.splitWhiteSpace (Text.toLowerCase searchTerm)).

Definition useSearchFilter (items : list (gmap string FieldValue))
    (searchTerm : string) (searchableFields : list string)
  : list (gmap string FieldValue) :=
  if negb (JS.truthy (JS.trim searchTerm)) then items
  else
    let terms := searchTerms searchTerm in
    if (length terms =? 0)%nat then items
    else List.filter (itemMatches searchableFields terms) items.

(** ** Pattern matching

    [matchPattern]: a pattern written between slashes is a regular
    expression, any other pattern is compared literally.  The regular
    expression engine is the runtime's. *)
Section MatchPattern.

(** [new RegExp(source, flags).test(text)]; [None] when the constructor
    throws. *)
Variable RegExp_test : string → string → string → option bool.

Definition matchPattern (text pattern : string) : bool :=
  if JS.startsWith pattern "/" &&
     match Text.lastIndexOf "/" pattern with
     | Some last => (0 <? last)%nat
     | None => false
     end
  then
    match Text.lastIndexOf "/" pattern with
    | Some last =>
        match RegExp_test (Text.slice 1 last pattern)
                          (JS.drop (S last) pattern) text with
        | Some answer => answer
        | None => false
        end
    | None => false
    end
  else String.eqb text pattern.

End MatchPattern.

(** ** Configuration files

    The loader of the layered configuration.  A path is absolute and
    normalized, given by its segments below the root, so that [dirname]
    drops the last segment (and leaves the root as it is) and [join] with a
    file name adds one; the file system is read, not changed, while a
    configuration loads. *)
Module Config.

(** A thrown error: its [code], when it has one, and its [message]. *)
Record JsError := { err_code : option string; err_message : string }.

Inductive Source := default_ | global | local.

Definition pathString (path : list string) : string :=
  "/" +:+ JS.join "/" path.

Section Load.
Context {V Json : Type}.

(** [os.homedir()], [fs.access], [fs.readFile(.., "utf-8")], [JSON.parse]
    and the caller's [validate]. *)
Variable homedir : list string.
Variable access : list string → bool.
Variable readFile : list string → JsError + string.
Variable JSON_parse : string → JsError + Json.
Variable validate : Json → JsError + gmap string V.

Record ConfigResult := {
  config : gmap string V;
  sources : gmap string Source
}.

(** The [while] loop of [findUp], run for at most [fuel] rounds; [None]
    when the rounds are used up. *)
Fixpoint findUpFrom (fuel : nat) (name : string) (dir stopDir : list string)
  : option (option (list string)) :=
  match fuel with
  | O => None
  | S fuel' =>
      if decide (dir = stopDir) then Some None
      else
        let filePath := dir ++ [name] in
        if access filePath then Some (Some filePath)
        else findUpFrom fuel' name (removelast dir) stopDir
  end.

Definition findUp (fuel : nat) (name : string) (startDir : list string)
  : option (option (list string)) :=
  findUpFrom fuel name startDir (removelast homedir).

(** The [catch] of [readConfigFile]. *)
Definition readFailure (filePath : list string) (error : JsError)
  : Result (option (gmap string V)) :=
  if bool_decide (err_code error = Some "ENOENT") then Ok None
  else Throw ("Error reading or parsing config file at " +:+ pathString filePath
              +:+ ": " +:+ err_message error).

Definition readConfigFile (filePath : list string)
  : Result (option (gmap string V)) :=
  match readFile filePath with
  | inl error => readFailure filePath error
  | inr content =>
      match JSON_parse content with
      | inl error => readFailure filePath error
      | inr parsed =>
          match validate parsed with
          | inl error => readFailure filePath error
          | inr validated => Ok (Some validated)
          end
      end
  end.

(** The layer a key of the merged configuration is attributed to. *)
Definition sourceOf (defaultConfig : gmap string V)
    (globalConfig localConfig : option (gmap string V)) (key : string)
  : option Source :=
  if bool_decide (is_Some (localConfig ≫= (λ c, c !! key))) then Some local
  else if bool_decide (is_Some (globalConfig ≫= (λ c, c !! key))) then Some global
  else if bool_decide (is_Some (defaultConfig !! key)) then Some default_
  else None.

Definition getGlobalConfigPath (toolName configFile : string) : list string :=
  homedir ++ [".config"; toolName; configFile].

Definition loadConfig (fuel : nat) (toolName configFile localConfigFile : string)
    (defaultConfig : gmap string V) (cwd : list string)
  : option (Result ConfigResult) :=
  let globalConfigPath := homedir ++ [".config"; toolName; configFile] in
  match readConfigFile globalConfigPath with
  | Throw e => Some (Throw e)
  | Ok globalConfig =>
      match findUp fuel localConfigFile cwd with
      | None => None
      | Some localConfigPath =>
          match (match localConfigPath with
                 | Some path => readConfigFile path
                 | None => Ok None
                 end) with
          | Throw e => Some (Throw e)
          | Ok localConfig =>
              let merged : gmap string V :=
                default ∅ localConfig ∪ (default ∅ globalConfig ∪ defaultConfig) in
              Some (Ok {| config := merged;
                          sources :=
                            map_imap (λ key _, sourceOf defaultConfig globalConfig
                                                        localConfig key) merged |})
          end
      end
  end.

(** [findLocalConfigPath] is [findUp]. *)
Definition findLocalConfigPath (fuel : nat) (localConfigFile : string)
    (cwd : list string) : option (option (list string)) :=
  findUp fuel localConfigFile cwd.

Record LocalConfig := {
  local_path : list string;
  local_config : option (gmap string V);
  local_exists : bool
}.

Definition loadLocalConfig (fuel : nat) (localConfigFile : string)
    (cwd : list string) : option (Result LocalConfig) :=
  match findLocalConfigPath fuel localConfigFile cwd with
  | None => None
  | Some (Some existingPath) =>
      match readConfigFile existingPath with
      | Throw e => Some (Throw e)
      | Ok read =>
          Some (Ok {| local_path := existingPath; local_config := read;
                      local_exists := true |})
      end
  | Some None =>
      Some (Ok {| local_path := cwd ++ [localConfigFile]; local_config := None;
                  local_exists := false |})
  end.

End Load.
End Config.

(** ** A scripted repository

    A repository that answers a fixed sequence of commands, each with the
    reply written next to it, and rejects anything else. *)
Module Scripted.

Inductive Reply :=
| Printed (output : string)
| Finished
| Listed (names : list string).

Definition reply (c : Cmd) (r : Reply) : string + Resp c :=
  match c return string + Resp c with
  | Raw _ | Checkout _ | Revparse _ | Add _ =>
      match r with Printed out => inr out | _ => inl "script: wrong kind of reply" end
  | Fetch _ | AddAnnotatedTag _ _ | Push _ =>
      match r with Finished => inr tt | _ => inl "script: wrong kind of reply" end
  | Branch _ | BranchLocal =>
      match r with
      | Listed names => inr {| all := names |}
      | _ => inl "script: wrong kind of reply"
      end
  end.

Definition Script : Type := list (Cmd * (string + Reply)).

Definition run (c : Cmd) (w : Script) : (string + Resp c) * Script :=
  match w with
  | [] => (inl "script: no step left", [])
  | (expected, answer) :: rest =>
      if decide (c = expected)
      then (match answer with inl e => inl e | inr r => reply c r end, rest)
      else (inl "script: unexpected command", w)
  end.

#[export] Instance host : Host := {|
  World := Script;
  exec := run;
  isValidBranchName := Validator.isValidBranchName;
  pid := 4242;
  Date_now := λ _, 0%N;
  Date_parse := Fixture.parseDate;
  number := option Z;
  number_zero := Some 0;
  Number := Fixture.parseNumber
|}.

Definition start (w : Script) : St :=
  {| world := w; journal := []; reported := [] |}.

End Scripted.

(** ** A small disk

    A home directory with a global configuration of the tool [ag], and a
    working tree below it with a local configuration one level above the
    repository.  File contents stand for the JSON they hold. *)
Module Disk.

Definition homedir : list string := ["home"; "kim"].

Definition files : list (list string * string) :=
  [ (["home"; "kim"; ".config"; "ag"; "config.json"], "global");
    (["home"; "kim"; "work"; ".agrc"], "local");
    (["home"; ".agrc"], "") ].

Definition content (path : list string) : option string :=
  snd <$> List.find (λ file, bool_decide (fst file = path)) files.

Definition access (path : list string) : bool :=
  bool_decide (is_Some (content path)).

Definition readFile (path : list string) : Config.JsError + string :=
  match content path with
  | Some text => inr text
  | None =>
      inl {| Config.err_code := Some "ENOENT";
             Config.err_message := "ENOENT: no such file or directory" |}
  end.

Definition JSON_parse (text : string) : Config.JsError + string :=
  if String.eqb text ""
  then inl {| Config.err_code := None;
              Config.err_message := "Unexpected end of JSON input" |}
  else inr text.

Definition globalConfig : gmap string Z := {[ "depth" := 1; "editor" := 1 ]}.
Definition localConfig : gmap string Z := {[ "depth" := 2 ]}.
Definition defaultConfig : gmap string Z := {[ "depth" := 0; "color" := 0 ]}.

Definition validate (parsed : string) : Config.JsError + gmap string Z :=
  if String.eqb parsed "global" then inr globalConfig
  else if String.eqb parsed "local" then inr localConfig
  else inl {| Config.err_code := None; Config.err_message := "Invalid config" |}.

Definition cwd : list string := ["home"; "kim"; "work"; "repo"].

End Disk.

(** ** Vocabulary of the statements *)

(** An invocation that resolved, and one that was rejected. *)
Definition ok (c : Cmd) : Invocation := {| inv_cmd := c; inv_ok := true |}.
Definition ko (c : Cmd) : Invocation := {| inv_cmd := c; inv_ok := false |}.

Definition isCheckout (c : Cmd) : bool :=
  match c with Checkout _ => true | _ => false end.

Definition isRebase (c : Cmd) : bool :=
  match c with Raw ("rebase" :: _) => true | _ => false end.

Definition isReset (c : Cmd) : bool :=
  match c with Raw ("reset" :: _) => true | _ => false end.

Definition isTag (c : Cmd) : bool :=
  match c with AddAnnotatedTag _ _ => true | _ => false end.

Definition revListCount (branch base : string) : Cmd :=
  Raw ["rev-list"; "--left-right"; "--count"; base +:+ "..." +:+ branch].

Definition revListRange (from to : string) : Cmd :=
  Raw ["rev-list"; "--reverse"; "--no-merges"; from +:+ ".." +:+ to].

Definition rebaseAbort : Cmd := Raw ["rebase"; "--abort"].



(** A non-empty string without white space, as a commit id is. *)
Fixpoint noWhiteSpace (s : string) : bool :=
  match s with
  | EmptyString => true
  | String c r => negb (JS.isWhiteSpace c) && noWhiteSpace r
  end.

Definition isWord (s : string) : bool := JS.truthy s && noWhiteSpace s.

(** The text that prints the given items one per line. *)
Definition printLines (items : list string) : string :=
  foldr (λ item rest, item +:+ String LF rest) "" items.

(** [choice] is the first of [candidates] that is among [present], or
    nothing when none is. *)
Definition firstPresent (candidates present : list string)
    (choice : option string) : Prop :=
  match choice with
  | Some c => ∃ earlier later,
                candidates = earlier ++ c :: later ∧ c ∈ present ∧
                Forall (λ x, x ∉ present) earlier
  | None => Forall (λ x, x ∉ present) candidates
  end.

(** The base-branch policy: the first present of the three names under
    [origin], else the first present of the three local names. *)
Definition basePolicy (remoteBranches localBranches : list string)
    (base : option string) : Prop :=
  match base with
  | Some c =>
      firstPresent ["origin/main"; "origin/master"; "origin/develop"]
                   remoteBranches (Some c) ∨
      (firstPresent ["origin/main"; "origin/master"; "origin/develop"]
                    remoteBranches None ∧
       firstPresent ["main"; "master"; "develop"] localBranches (Some c))
  | None =>
      firstPresent ["origin/main"; "origin/master"; "origin/develop"]
                   remoteBranches None ∧
      firstPresent ["main"; "master"; "develop"] localBranches None
  end.

Section Vocabulary.
Context `{H : Host}.

(** The ordering law of the inventory: no remote record before a local
    one, and within a type the commit dates do not increase, a missing date
    counting as time 0. *)
Definition inventoryOrdered (records : list BranchInfo) : Prop :=
  ∀ i j a b,
    (i < j)%nat → records !! i = Some a → records !! j = Some b →
    ¬ (type a = BranchType.remote ∧ type b = BranchType.local) ∧
    (type a = type b →
     default 0 (lastCommitDate b) ≤ default 0 (lastCommitDate a)).

(** The state reached by one invocation. *)
Definition after (s : St) (c : Cmd) (resolved : bool) (w : World) : St :=
  {| world := w;
     journal := journal s ++ [{| inv_cmd := c; inv_ok := resolved |}];
     reported := reported s |}.

(** Whether the host's answer is a response. *)
Definition resolves {c : Cmd} (answer : (string + Resp c) * World) : bool :=
  match fst answer with inl _ => false | inr _ => true end.

End Vocabulary.

(** ** Vocabulary of the further statements *)

(** Every code unit of [s] satisfies [p]. *)
Fixpoint every (p : ascii → bool) (s : string) : bool :=
  match s with
  | EmptyString => true
  | String c r => p c && every p r
  end.

Definition isNot (c : ascii) (a : ascii) : bool := negb (Ascii.eqb a c).

(** [s] is empty or starts with something other than white space. *)
Definition startsClean (s : string) : bool :=
  match s with
  | EmptyString => true
  | String c _ => negb (JS.isWhiteSpace c)
  end.

(** [term.length > 0] *)
Definition nonEmpty (term : string) : bool := (0 <? String.length term)%nat.

(** The first piece of [s.split(/\s+/)] and the pieces after it. *)
Definition firstPiece (s : string) : string :=
  match Text.splitWhiteSpaceFrom false s with h :: _ => h | [] => "" end.

Definition otherPieces (s : string) : list string :=
  match Text.splitWhiteSpaceFrom false s with _ :: t => t | [] => [] end.

(** [marker] starts somewhere inside [pre] when [pre] is followed by
    [rest]. *)
Fixpoint occursBefore (marker pre rest : string) : bool :=
  match pre with
  | EmptyString => false
  | String _ p => JS.startsWith (pre +:+ rest) marker || occursBefore marker p rest
  end.

(** A listed branch as found in an inventory record: the record without
    its three computed fields. *)
Definition entryOf `{H : Host} (b : BranchInfo) : BranchEntry :=
  {| entry_ref := ref b; entry_name := name b; entry_type := type b;
     entry_remote := remote b; entry_lastCommitDate := lastCommitDate b;
     entry_lastCommitSha := lastCommitSha b;
     entry_lastCommitSubject := lastCommitSubject b |}.

(** The value a configuration layer gives to [key]: none when the layer is
    absent or does not have the key. *)
Definition layer {V : Type} (c : option (gmap string V)) (key : string)
  : option V :=
  c ≫= (λ m, m !! key).

(** * Properties *)

(** ** Running the monad *)
Section Running.
Context `{H : Host}.

Lemma run_bind {A B} (m : M A) (k : A → M B) s :
  (m ≫= k) s = match m s with
               | (Ok a, s') => k a s'
               | (Throw e, s') => (Throw e, s')
               end.
Proof. reflexivity. Qed.

Lemma run_ret {A} (a : A) s : (mret a : M A) s = (Ok a, s).
Proof. reflexivity. Qed.

Lemma call_rejected c s e w :
  exec c (world s) = (inl e, w) → call c s = (Throw e, after s c false w).
Proof. intros E. unfold call. now rewrite E. Qed.

Lemma call_resolved c s r w :
  exec c (world s) = (inr r, w) → call c s = (Ok r, after s c true w).
Proof. intros E. unfold call. now rewrite E. Qed.

(** Every invocation either rejects or resolves. *)
Lemma call_cases c s :
  (∃ e w, exec c (world s) = (inl e, w) ∧ call c s = (Throw e, after s c false w)) ∨
  (∃ r w, exec c (world s) = (inr r, w) ∧ call c s = (Ok r, after s c true w)).
Proof.
  destruct (exec c (world s)) as [[e|r] w] eqn:E.
  - left. exists e, w. split; [reflexivity | now apply call_rejected].
  - right. exists r, w. split; [reflexivity | now apply call_resolved].
Qed.

End Running.

(** Unfold the monad down to the host's answers. *)
Ltac run_monad :=
  unfold mbind, M_bind, bind, mret, M_ret, ret, throw, try_catch, call, report, now.

(** Case on the host's answer to the next command in the goal. *)
Ltac answer :=
  match goal with
  | |- context [exec ?c ?w] =>
      let e := fresh "e" in let r := fresh "r" in let w' := fresh "w" in
      let E := fresh "E" in
      destruct (exec c w) as [[e|r] w'] eqn:E; simpl
  end.

(** Choose the outcome of an invocation, backtracking when a later step
    refutes the choice. *)
Ltac pick_outcome := (exists true) + (exists false).

(** ** Divergence calculator *)
Section Divergence.
Context `{H : Host}.

(** C7. Comparing a branch with itself answers zero ahead and zero behind
    and leaves the state, journal included, as it was: no subprocess is
    invoked.  For any branch and base, when the count query is rejected the
    answer is zero ahead and zero behind, not an exception. *)
Theorem getAheadBehind_self_and_failure (branch base : string) (s : St) :
  (branch = base → getAheadBehind branch base s = (Ok zeroAheadBehind, s)) ∧
  (∀ e w, exec (revListCount branch base) (world s) = (inl e, w) →
          fst (getAheadBehind branch base s) = Ok zeroAheadBehind).
Proof.
  split.
  - intros ->. unfold getAheadBehind. now rewrite String.eqb_refl.
  - intros e w E. unfold getAheadBehind.
    destruct (String.eqb branch base); [reflexivity|].
    unfold revListCount in E. run_monad. now rewrite E.
Qed.

End Divergence.

(** The self-comparison of [main], and [feature] against [main] in a
    repository whose count query fails. *)
Lemma getAheadBehind_self_and_failure_witness :
  getAheadBehind "main" "main" (Fixture.start Fixture.repo)
    = (Ok zeroAheadBehind, Fixture.start Fixture.repo) ∧
  fst (getAheadBehind "feature" "main" (Fixture.start Fixture.unreadable))
    = Ok zeroAheadBehind.
Proof.
  split.
  - now apply (getAheadBehind_self_and_failure "main" "main").
  - eapply (getAheadBehind_self_and_failure "feature" "main"
              (Fixture.start Fixture.unreadable)).
    reflexivity.
Defined.

(** ** Validation at the subprocess boundary *)
Section Validation.
Context `{H : Host}.

(** The operations that check the name throw before any invocation: the
    state, journal included, is untouched. *)
Lemma validated_operations_abort (branch other : string) (s : St) :
  isValidBranchName branch = false →
  (∀ options, deleteLocalBranch branch options s = (Throw (InvalidReference branch), s)) ∧
  deleteRemoteBranch other branch s = (Throw (InvalidReference branch), s) ∧
  branchExists branch s = (Throw (InvalidReference branch), s) ∧
  setupCherryPick branch s = (Throw (InvalidReference branch), s) ∧
  getMergeBase branch other s = (Throw (InvalidReference branch), s) ∧
  (isValidBranchName other = true →
   getMergeBase other branch s = (Throw (InvalidReference branch), s)) ∧
  (∀ current callback options,
     performLinearRebase current branch callback options s
     = (Throw (InvalidReference branch), s)).
Proof.
  intros E.
  unfold deleteLocalBranch, deleteRemoteBranch, branchExists, setupCherryPick,
    getMergeBase, performLinearRebase.
  rewrite E. simpl. repeat split; try reflexivity.
  intros ->. reflexivity.
Qed.

(** [pushWithLease] hands any name to [git push], whatever the validator
    says about it. *)
Lemma pushWithLease_invokes (branch : string) (s : St) :
  ∃ ok, journal (snd (pushWithLease branch s))
        = journal s ++ [{| inv_cmd := Push ["-u"; "origin"; branch; "--force-with-lease"];
                           inv_ok := ok |}].
Proof.
  unfold pushWithLease. run_monad. answer; eauto.
Qed.

End Validation.

(** C2. The name [feature..branch] fails validation, and [pushWithLease]
    nevertheless resolves after invoking [git push] with that name among the
    arguments: no [InvalidReference] is raised on the push path. *)
Theorem pushWithLease_unvalidated :
  let s := pushWithLease "feature..branch" (Fixture.start Fixture.repo) in
  @isValidBranchName Fixture.host "feature..branch" = false ∧
  fst s = Ok tt ∧
  journal (snd s)
  = [{| inv_cmd := Push ["-u"; "origin"; "feature..branch"; "--force-with-lease"];
        inv_ok := true |}].
Proof. vm_compute. repeat split. Qed.

(** ** Temporary branch of the cherry-pick strategy *)
Section TempBranch.
Context `{H : Host}.

(** What one call on a valid target invokes: the lookup of the target's
    remote-tracking ref, then the branch creation itself. *)
Lemma setupCherryPick_runs (target : string) (s : St) :
  isValidBranchName target = true →
  ∃ tracked created,
    journal (snd (setupCherryPick target s))
    = journal s ++
      [{| inv_cmd := showRef ("refs/remotes/origin/" +:+ target); inv_ok := tracked |};
       {| inv_cmd := Checkout ["-b"; "temp-rebase-" +:+ pretty pid;
                               if tracked then "origin/" +:+ target else target];
          inv_ok := created |}] ∧
    (created = true →
     fst (setupCherryPick target s) = Ok ("temp-rebase-" +:+ pretty pid)) ∧
    (created = false → ∃ e, fst (setupCherryPick target s) = Throw e).
Proof.
  intros V. unfold setupCherryPick, resolveBranchRef, tempBranchName. rewrite V. simpl.
  run_monad. answer; answer;
    rewrite <- ?app_assoc; simpl.
  all: pick_outcome; pick_outcome; (split; [reflexivity|]);
    split; intros ?; first [discriminate | eauto].
Qed.

(** C10. The temporary branch name is [temp-rebase-<pid>]: two calls in the
    same process return the same name whatever their targets and states,
    and a call on a valid target invokes only the lookup of the target's
    remote-tracking ref and the creation of that branch, so a clash shows
    only as the creation being rejected. *)
Theorem setupCherryPick_name_from_pid (target1 target2 : string) (s1 s2 : St) :
  (∀ name1 name2,
     fst (setupCherryPick target1 s1) = Ok name1 →
     fst (setupCherryPick target2 s2) = Ok name2 →
     name1 = name2 ∧ name1 = "temp-rebase-" +:+ pretty pid) ∧
  (isValidBranchName target1 = true →
   ∃ tracked created,
     journal (snd (setupCherryPick target1 s1))
     = journal s1 ++
       [{| inv_cmd := showRef ("refs/remotes/origin/" +:+ target1); inv_ok := tracked |};
        {| inv_cmd := Checkout ["-b"; "temp-rebase-" +:+ pretty pid;
                                if tracked then "origin/" +:+ target1 else target1];
           inv_ok := created |}] ∧
     (created = true ↔ fst (setupCherryPick target1 s1) = Ok ("temp-rebase-" +:+ pretty pid))).
Proof.
  assert (named : ∀ t s n, fst (setupCherryPick t s) = Ok n →
                            n = "temp-rebase-" +:+ pretty pid).
  { intros t s n. unfold setupCherryPick, resolveBranchRef, tempBranchName.
    destruct (isValidBranchName t); simpl; [|discriminate].
    run_monad. answer; answer; congruence. }
  split.
  - intros n1 n2 E1 E2. apply named in E1, E2. split; congruence.
  - intros V. destruct (setupCherryPick_runs target1 s1 V) as (tracked & created & J & R & F).
    exists tracked, created. split; [exact J|]. split.
    + exact R.
    + intros E. destruct created; [reflexivity|].
      destruct (F eq_refl) as [e Fe]. congruence.
Qed.

End TempBranch.

(** Two calls with different targets, in different repositories. *)
Lemma setupCherryPick_name_from_pid_witness :
  (fst (setupCherryPick "main" (Fixture.start Fixture.repo)) = Ok "temp-rebase-4242" ∧
   fst (setupCherryPick "trunk" (Fixture.start Fixture.unconventional))
   = Ok "temp-rebase-4242" ∧
   "temp-rebase-4242" = "temp-rebase-" +:+ pretty (@pid Fixture.host)) ∧
  ∃ tracked created,
    journal (snd (setupCherryPick "main" (Fixture.start Fixture.repo)))
    = [{| inv_cmd := showRef "refs/remotes/origin/main"; inv_ok := tracked |};
       {| inv_cmd := Checkout ["-b"; "temp-rebase-4242";
                               if tracked then "origin/main" else "main"];
          inv_ok := created |}].
Proof.
  pose proof (setupCherryPick_name_from_pid "main" "trunk"
                (Fixture.start Fixture.repo) (Fixture.start Fixture.unconventional))
    as [same runs].
  split.
  - split; [reflexivity|]. split; [reflexivity|].
    exact (proj2 (same "temp-rebase-4242" "temp-rebase-4242" eq_refl eq_refl)).
  - destruct (runs eq_refl) as (tracked & created & J & _).
    exists tracked, created. exact J.
Defined.

(** ** Linear rebase *)
Section LinearRebase.
Context `{H : Host}.

(** What [branchExists] goes by: for a valid name it answers whether one of
    its two lookups resolved, the one under [refs/remotes/origin/] first
    and the one under [refs/heads/] only when the first was rejected, and it
    invokes nothing else. *)
Lemma branchExists_lookups (branch : string) (s : St) :
  isValidBranchName branch = true →
  let tracking := showRef ("refs/remotes/origin/" +:+ branch) in
  let localHead := showRef ("refs/heads/" +:+ branch) in
  let first := exec tracking (world s) in
  let second := exec localHead (snd first) in
  fst (branchExists branch s) = Ok (resolves first || resolves second) ∧
  (resolves first = true →
   snd (branchExists branch s) = after s tracking true (snd first)).
Proof.
  intros V tracking localHead first second.
  subst first second tracking localHead. unfold resolves, branchExists, after.
  rewrite V. simpl. run_monad. split.
  - answer; [answer|]; reflexivity.
  - answer; [discriminate|reflexivity].
Qed.




End LinearRebase.


(** In the concrete repository the quiet lookup of a ref resolves with no
    output and changes nothing, whether the ref is there or not. *)
Lemma fixture_showRef_resolves (refname : string) (w : Fixture.Repo) :
  Fixture.run (showRef refname) w = (inr "", w).
Proof.
  unfold showRef, Fixture.run, Fixture.raw, Fixture.process.
  destruct (Fixture.lookupRef refname w); reflexivity.
Qed.

(** C9. [topic] is a valid name that is found neither under [origin] nor
    locally, only as [upstream/topic], and [branchExists] answers true for
    it, in the concrete repository and in any other: the quiet lookup under
    [refs/remotes/origin/] fails without a word, so its promise resolves,
    and the second lookup is never made. *)
Theorem branchExists_absent_answers_true :
  let s := Fixture.start Fixture.repo in
  (@isValidBranchName Fixture.host "topic" = true ∧
   Fixture.lookupRef "refs/remotes/origin/topic" Fixture.repo = None ∧
   Fixture.lookupRef "refs/heads/topic" Fixture.repo = None ∧
   Fixture.lookupRef "refs/remotes/upstream/topic" Fixture.repo ≠ None) ∧
  fst (Fixture.process ["show-ref"; "--verify"; "--quiet"; "refs/remotes/origin/topic"]
         Fixture.repo)
  = {| Fixture.exitCode := 1; Fixture.stdOut := ""; Fixture.stdErr := "" |} ∧
  branchExists "topic" s
  = (Ok true, after s (showRef "refs/remotes/origin/topic") true Fixture.repo) ∧
  ∀ w, fst (branchExists "topic" (Fixture.start w)) = Ok true.
Proof.
  intros s. split; [|split; [|split]].
  - repeat split. discriminate.
  - reflexivity.
  - reflexivity.
  - intros w.
    destruct (branchExists_lookups "topic" (Fixture.start w) eq_refl) as [A _].
    rewrite A. simpl world.
    change (@exec Fixture.host) with Fixture.run.
    now rewrite fixture_showRef_resolves.
Qed.

(** C3. The scenario of the specification, [feature] onto [nonexistent]:
    the target is found neither under [origin] nor locally after the fetch,
    yet the existence check passes, [feature] is checked out and a rebase
    onto [origin/nonexistent] is invoked; the error thrown is the one of
    that rebase, wrapped as a failed linear rebase, not the
    target-not-found error. *)
Theorem performLinearRebase_absent_target_rebases :
  let s := Fixture.start Fixture.repo in
  let run := performLinearRebase "feature" "nonexistent" false None s in
  (@isValidBranchName Fixture.host "nonexistent" = true ∧
   Fixture.known "origin/nonexistent" Fixture.repo = false ∧
   Fixture.known "nonexistent" Fixture.repo = false) ∧
  (fetchAll;; branchExists "nonexistent") s
  = (Ok true, after (after s (Fetch ["--all"]) true Fixture.repo)
                    (showRef "refs/remotes/origin/nonexistent") true Fixture.repo) ∧
  fst run = Throw (RebaseFailed "fatal: invalid upstream 'origin/nonexistent'") ∧
  (∀ wrapped, fst run ≠ Throw (TargetNotFound "nonexistent") ∧
              (fst run = Throw (RebaseFailed wrapped) →
               wrapped ≠ TargetNotFound "nonexistent")) ∧
  journal (snd run)
  = [ok (Fetch ["--all"]);
     ok (showRef "refs/remotes/origin/nonexistent");
     ok (Checkout ["feature"]);
     ok (showRef "refs/remotes/origin/nonexistent");
     ko (Raw ["rebase"; "origin/nonexistent"]);
     ko rebaseAbort] ∧
  Exists (λ i, isCheckout (inv_cmd i) = true) (journal (snd run)) ∧
  Exists (λ i, isRebase (inv_cmd i) = true) (journal (snd run)).
Proof.
  intros s run.
  assert (R : fst run = Throw (RebaseFailed "fatal: invalid upstream 'origin/nonexistent'"))
    by reflexivity.
  split; [repeat split|]. split; [reflexivity|]. split; [exact R|].
  split; [|split; [reflexivity|split]].
  - intros wrapped. rewrite R. split; [discriminate|].
    intros [= E] T. rewrite T in E. discriminate E.
  - do 2 apply List.Exists_cons_tl. apply List.Exists_cons_hd. reflexivity.
  - do 4 apply List.Exists_cons_tl. apply List.Exists_cons_hd. reflexivity.
Qed.

(** ** Finishing a cherry-pick rebase *)
Section Finish.
Context `{H : Host}.

(** C1. A finish with [createBackup] takes the backup of the current
    branch before the reset.  The hard reset is invoked only as the last of
    four invocations, in this order: the checkout of the current branch, the
    reading of its revision, and the annotated tag, named after the branch
    and the clock and carrying in its message the revision just read, all
    three resolved, then the reset; and the reset is invoked, onto the
    temporary branch, whenever these three resolve, the call resolving
    exactly when the reset does.  When the backup step (reading the revision
    or creating the tag) is rejected, the call throws the backup-failed
    error and invokes no reset; whatever checkout, rev-parse and tag leave
    alone in the repository, the tip of the current branch among it, is then
    as it was before the call. *)
Theorem finishCherryPick_backup_before_reset
    (currentBranch tempBranch : string) (s : St) :
  let run := finishCherryPick currentBranch tempBranch
               (Some {| createBackup := Some true |}) s in
  let checkout := Checkout [currentBranch] in
  let revparse := Revparse [currentBranch] in
  let reset := Raw ["reset"; "--hard"; tempBranch] in
  let onBranch := snd (exec checkout (world s)) in
  let read := snd (exec revparse onBranch) in
  let tag revision :=
    AddAnnotatedTag (backupTagName currentBranch (Date_now read))
                    (backupTagMessage currentBranch (JS.trim revision)) in
  ∃ new,
    journal (snd run) = journal s ++ new ∧
    (∀ before i later,
       new = before ++ i :: later → isReset (inv_cmd i) = true →
       ∃ revision,
         fst (exec revparse onBranch) = inr revision ∧
         before = [ok checkout; ok revparse; ok (tag revision)] ∧
         inv_cmd i = reset ∧ later = [] ∧
         world (snd run) = snd (exec reset (snd (exec (tag revision) read)))) ∧
    (∀ revision,
       resolves (exec checkout (world s)) = true →
       fst (exec revparse onBranch) = inr revision →
       resolves (exec (tag revision) read) = true →
       ∃ resetOk,
         new = [ok checkout; ok revparse; ok (tag revision);
                {| inv_cmd := reset; inv_ok := resetOk |}] ∧
         (resetOk = true ↔ fst run = Ok tt)) ∧
    (∀ i, i ∈ new →
          isTag (inv_cmd i) = true ∨ inv_cmd i = Revparse [currentBranch] →
          inv_ok i = false →
          (∃ m, fst run = Throw (BackupFailed m)) ∧
          Forall (λ j, isReset (inv_cmd j) = false) new ∧
          ∀ (A : Type) (observe : World → A),
            (∀ c w, c = Checkout [currentBranch] ∨ c = Revparse [currentBranch] ∨
                    isTag c = true →
                    observe (snd (exec c w)) = observe w) →
            observe (world (snd run)) = observe (world s)).
Proof.
  intros run checkout revparse reset onBranch read tag.
  subst run checkout revparse reset onBranch read tag.
  unfold finishCherryPick, resolves. simpl. run_monad.
  answer.
  { eexists. split; [reflexivity|]. split; [|split].
    - intros before i later D I.
      repeat (destruct before as [|? before]; simplify_eq/=).
    - intros revision R. discriminate R.
    - intros i Hi B F. apply list_elem_of_singleton in Hi. subst i. simpl in B.
      destruct B as [B|B]; discriminate B. }
  answer.
  { rewrite <- !app_assoc. eexists. split; [reflexivity|]. split; [|split].
    - intros before i later D I.
      repeat (destruct before as [|? before]; simplify_eq/=).
    - intros revision _ R. discriminate R.
    - intros i Hi B F. split; [eauto|]. split.
      + repeat first [apply List.Forall_nil | apply List.Forall_cons; [reflexivity|]].
      + intros A observe P.
        rewrite <- (P (Checkout [currentBranch]) (world s)) by auto.
        rewrite E. simpl.
        rewrite <- (P (Revparse [currentBranch]) w) by auto.
        now rewrite E0. }
  answer.
  { rewrite <- !app_assoc. eexists. split; [reflexivity|]. split; [|split].
    - intros before i later D I.
      repeat (destruct before as [|? before]; simplify_eq/=).
    - intros revision _ [= <-] T. rewrite E1 in T. discriminate T.
    - intros i Hi B F. split; [eauto|]. split.
      + repeat first [apply List.Forall_nil | apply List.Forall_cons; [reflexivity|]].
      + intros A observe P.
        rewrite <- (P (Checkout [currentBranch]) (world s)) by auto.
        rewrite E. simpl.
        rewrite <- (P (Revparse [currentBranch]) w) by auto.
        rewrite E0. simpl.
        match type of E1 with exec ?c _ = _ =>
          rewrite <- (P c w0) by (right; right; reflexivity) end.
        now rewrite E1. }
  answer; rewrite <- !app_assoc; simpl.
  all: eexists; (split; [reflexivity|]); (split; [|split]).
  all: try (intros before i later D I;
            repeat (destruct before as [|? before]; simplify_eq/=);
            eexists; repeat split; rewrite ?E1; simpl; rewrite ?E2; reflexivity).
  all: try (intros revision _ [= <-] _; pick_outcome; split; [reflexivity|];
            split; intros X; first [discriminate X | reflexivity]).
  all: intros i Hi B F; exfalso;
    rewrite !elem_of_cons, elem_of_nil in Hi;
    destruct Hi as [->|[->|[->|[->|[]]]]]; simpl in *; try discriminate F;
    destruct B as [B|B]; discriminate B.
Qed.

End Finish.

(** Pointing one ref elsewhere leaves the lookup of any other ref alone. *)
Lemma fixture_lookup_point (refname other : string) (target : Fixture.RefRow)
    (w : Fixture.Repo) :
  refname ≠ other →
  Fixture.lookupRef other (Fixture.point refname target w) = Fixture.lookupRef other w.
Proof.
  intros N. unfold Fixture.lookupRef, Fixture.point. simpl.
  destruct (String.eqb refname other) eqn:Q0;
    [apply String.eqb_eq in Q0; contradiction|].
  induction (Fixture.rows w) as [|x rest IH]; [reflexivity|].
  simpl.
  destruct (String.eqb (Fixture.row_ref x) refname) eqn:Q1;
    destruct (String.eqb (Fixture.row_ref x) other) eqn:Q2; simpl;
    rewrite ?Q2; try exact IH; try reflexivity.
  apply String.eqb_eq in Q1, Q2. congruence.
Qed.

(** In the concrete repository, checkout, rev-parse and tag leave the tip
    of [feature] alone. *)
Lemma fixture_tip_untouched (c : Cmd) (w : Fixture.Repo) :
  c = Checkout ["feature"] ∨ c = Revparse ["feature"] ∨ isTag c = true →
  Fixture.tip (snd (Fixture.run c w)) "feature" = Fixture.tip w "feature".
Proof.
  intros [->|[->|T]].
  - simpl. destruct (Fixture.lookupRef _ w); reflexivity.
  - simpl. destruct (Fixture.lookupRef _ w); reflexivity.
  - destruct c; try discriminate T. simpl.
    destruct (Fixture.tagsWritable w); [|reflexivity].
    destruct (Fixture.lookupRef ("refs/heads/" +:+ Fixture.head w) w); [|reflexivity].
    unfold Fixture.tip. simpl snd. rewrite fixture_lookup_point; [reflexivity|].
    intros E. cbv in E. discriminate E.
Qed.

(** Two finishes of [feature] onto [main]: in [repo] the tag is written on
    the tip [feature] had, before the reset moves the branch; in a
    repository that cannot write tags the call fails on the backup and
    [feature] still points where it did. *)
Lemma finishCherryPick_backup_before_reset_witness :
  let options := Some {| createBackup := Some true |} in
  let tag := AddAnnotatedTag "agrb-backup-feature-1714800000000"
                             "Backup before agrb reset: feature @ c3c3c3c" in
  let done := finishCherryPick "feature" "main" options (Fixture.start Fixture.repo) in
  let failed := finishCherryPick "feature" "main" options
                  (Fixture.start Fixture.readonlyTags) in
  (Fixture.tip Fixture.repo "feature" = Some "c3c3c3c" ∧
   journal (snd done)
   = [ok (Checkout ["feature"]); ok (Revparse ["feature"]); ok tag;
      ok (Raw ["reset"; "--hard"; "main"])] ∧
   fst done = Ok tt ∧
   Fixture.row_sha <$> Fixture.lookupRef "refs/tags/agrb-backup-feature-1714800000000"
                         (world (snd done)) = Some "c3c3c3c" ∧
   Fixture.tip (world (snd done)) "feature" = Some "a1a1a1a") ∧
  (fst failed = Throw "Failed to create backup tag: fatal: unable to write tag" ∧
   Forall (λ j, isReset (inv_cmd j) = false) (journal (snd failed)) ∧
   Fixture.tip (world (snd failed)) "feature" = Some "c3c3c3c").
Proof.
  intros options tag done failed. split.
  - destruct (finishCherryPick_backup_before_reset "feature" "main"
                (Fixture.start Fixture.repo)) as (new & J & _ & invoked & _).
    fold options done in J, invoked.
    destruct (invoked ("c3c3c3c" +:+ String LF "") eq_refl eq_refl eq_refl)
      as (resetOk & N & R).
    split; [reflexivity|]. split; [|split; [|split]].
    + rewrite J, N. destruct resetOk; [reflexivity|].
      assert (X : false = true) by (apply R; reflexivity). discriminate X.
    + apply R. destruct resetOk; [reflexivity|]. exfalso.
      rewrite N in J. vm_compute in J. discriminate J.
    + reflexivity.
    + reflexivity.
  - destruct (finishCherryPick_backup_before_reset "feature" "main"
                (Fixture.start Fixture.readonlyTags)) as (new & J & _ & _ & rejected).
    fold options failed in J, rejected. simpl in J. subst new.
    destruct (rejected (ko tag)) as ((m & E) & noReset & unchanged).
    + vm_compute. do 2 apply list_elem_of_further. apply list_elem_of_here.
    + left. reflexivity.
    + reflexivity.
    + split; [reflexivity|]. split; [exact noReset|].
      rewrite (unchanged _ (λ w, Fixture.tip w "feature")); [reflexivity|].
      exact fixture_tip_untouched.
Defined.

(** ** Lines of subprocess output *)

Lemma append_cons (c : ascii) (a b : string) : String c a +:+ b = String c (a +:+ b).
Proof. reflexivity. Qed.

Lemma append_empty (b : string) : "" +:+ b = b.
Proof. reflexivity. Qed.

Lemma isEmpty_append (a b : string) :
  JS.isEmpty b = false → JS.isEmpty (a +:+ b) = false.
Proof. destruct a; [rewrite append_empty; auto | reflexivity]. Qed.

Lemma trimEnd_append (a b : string) :
  JS.trimEnd (a +:+ b)
  = if JS.isEmpty (JS.trimEnd b) then JS.trimEnd a else a +:+ JS.trimEnd b.
Proof.
  induction a as [|c a IH].
  - rewrite append_empty. simpl. now destruct (JS.trimEnd b).
  - rewrite append_cons. simpl. rewrite IH.
    destruct (JS.isEmpty (JS.trimEnd b)) eqn:E; [reflexivity|].
    rewrite append_cons. now rewrite isEmpty_append.
Qed.

Lemma trimEnd_noWhiteSpace (s : string) :
  noWhiteSpace s = true → JS.trimEnd s = s.
Proof.
  induction s as [|c s IH]; [reflexivity|]. simpl.
  intros [C S]%andb_prop. rewrite (IH S).
  destruct (JS.isWhiteSpace c); [discriminate|]. now rewrite andb_false_r.
Qed.

Lemma trimStart_word (c rest : string) :
  isWord c = true → JS.trimStart (c +:+ rest) = c +:+ rest.
Proof.
  destruct c as [|a c]; [discriminate|]. unfold isWord. simpl.
  intros [A _]%andb_prop. rewrite append_cons. simpl.
  now destruct (JS.isWhiteSpace a).
Qed.

Lemma isWord_nonempty (c : string) : isWord c = true → JS.isEmpty c = false.
Proof. now destruct c. Qed.

Lemma isWord_noWhiteSpace (c : string) : isWord c = true → noWhiteSpace c = true.
Proof. unfold isWord. now intros [_ ?]%andb_prop. Qed.

(** Trimming the printed lines leaves the items joined by line feeds. *)
Lemma trim_printLines (items : list string) :
  Forall (λ c, isWord c = true) items →
  JS.trim (printLines items) = JS.join (String LF "") items.
Proof.
  intros W. unfold JS.trim.
  assert (S : JS.trimStart (printLines items) = printLines items).
  { destruct W as [|c items C W]; [reflexivity|]. simpl. now apply trimStart_word. }
  rewrite S. clear S.
  induction W as [|c items C W IH]; [reflexivity|].
  simpl printLines. rewrite trimEnd_append.
  change (JS.trimEnd (String LF (printLines items)))
    with (let r := JS.trimEnd (printLines items) in
          if JS.isEmpty r && JS.isWhiteSpace LF then "" else String LF r).
  rewrite IH. cbn zeta.
  destruct W as [|d items D W].
  - simpl. now apply trimEnd_noWhiteSpace, isWord_noWhiteSpace.
  - assert (N : JS.isEmpty (JS.join (String LF "") (d :: items)) = false).
    { simpl. destruct items; [now apply isWord_nonempty|].
      destruct d; [discriminate D | reflexivity]. }
    rewrite N. reflexivity.
Qed.

Lemma split_cons_other (sep c : ascii) (s : string) :
  Ascii.eqb c sep = false →
  JS.split sep (String c s)
  = match JS.split sep s with
    | h :: t => String c h :: t
    | [] => [String c ""]
    end.
Proof. intros E. simpl. now rewrite E. Qed.

Lemma split_line (c rest : string) :
  noWhiteSpace c = true →
  JS.split LF (c +:+ String LF rest) = c :: JS.split LF rest.
Proof.
  induction c as [|a c IH]; intros W.
  - reflexivity.
  - simpl in W. apply andb_prop in W as [A W].
    rewrite append_cons, split_cons_other.
    + now rewrite (IH W).
    + destruct (Ascii.eqb_spec a LF) as [->|]; [discriminate A | reflexivity].
Qed.

Lemma split_word (c : string) :
  noWhiteSpace c = true → JS.split LF c = [c].
Proof.
  induction c as [|a c IH]; intros W; [reflexivity|].
  simpl in W. apply andb_prop in W as [A W].
  rewrite split_cons_other.
  - now rewrite (IH W).
  - destruct (Ascii.eqb_spec a LF) as [->|]; [discriminate A | reflexivity].
Qed.

Lemma split_join_lines (items : list string) :
  Forall (λ c, isWord c = true) items → items ≠ [] →
  JS.split LF (JS.join (String LF "") items) = items.
Proof.
  induction 1 as [|c items C W IH]; [congruence|]. intros _.
  destruct items as [|d items].
  - simpl. now apply split_word, isWord_noWhiteSpace.
  - change (JS.join (String LF "") (c :: d :: items))
      with (c +:+ String LF "" +:+ JS.join (String LF "") (d :: items)).
    change (String LF "" +:+ JS.join (String LF "") (d :: items))
      with (String LF (JS.join (String LF "") (d :: items))).
    rewrite split_line by now apply isWord_noWhiteSpace.
    now rewrite IH.
Qed.

Lemma filter_words (items : list string) :
  Forall (λ c, isWord c = true) items →
  filter (λ line, Is_true (JS.truthy line)) items = items.
Proof.
  induction 1 as [|c items C W IH]; [reflexivity|].
  rewrite filter_cons, IH.
  destruct (decide (Is_true (JS.truthy c))) as [|N]; [reflexivity|].
  exfalso. apply N. unfold isWord in C. apply andb_prop in C as [-> _]. exact I.
Qed.

(** ** Commit queue of the cherry-pick strategy *)
Section CommitQueue.
Context `{H : Host}.

(** C5. The queue is asked of git as the reversed, merge-free listing of
    the range [from..to], in one invocation, and whatever ids git prints for
    it, one per line, come back as they were printed: the same ids in the
    same order, none dropped, merged or repeated. *)
Theorem getCommitsToCherryPick_as_listed
    (from to : string) (s : St) (commits : list string) (w : World) :
  Forall (λ c, isWord c = true) commits →
  exec (Raw ["rev-list"; "--reverse"; "--no-merges"; from +:+ ".." +:+ to]) (world s)
  = (inr (printLines commits), w) →
  getCommitsToCherryPick from to s
  = (Ok commits, after s (revListRange from to) true w).
Proof.
  intros W E. unfold getCommitsToCherryPick. run_monad. rewrite E.
  rewrite (trim_printLines commits W).
  destruct commits as [|c commits]; [reflexivity|].
  rewrite split_join_lines by (auto; discriminate).
  now rewrite filter_words.
Qed.

End CommitQueue.

(** The scenario of the specification: two commits ahead of [main]. *)
Lemma getCommitsToCherryPick_as_listed_witness :
  fst (getCommitsToCherryPick "main" "feature" (Fixture.start Fixture.repo))
  = Ok ["b2b2b2b"; "c3c3c3c"] ∧
  journal (snd (getCommitsToCherryPick "main" "feature" (Fixture.start Fixture.repo)))
  = [ok (Raw ["rev-list"; "--reverse"; "--no-merges"; "main..feature"])].
Proof.
  rewrite (getCommitsToCherryPick_as_listed "main" "feature"
             (Fixture.start Fixture.repo) ["b2b2b2b"; "c3c3c3c"] Fixture.repo).
  - split; reflexivity.
  - repeat constructor.
  - reflexivity.
Defined.

(** ** The sort of the inventory *)
Section SortFacts.
Context {A : Type} (cmp : A → A → Z).

Let before (a b : A) : Prop := cmp a b ≤ 0.

Hypothesis cmp_total : ∀ a b, 0 < cmp a b → cmp b a ≤ 0.

Lemma insert_sorted_Permutation (x : A) (l : list A) :
  JS.insert_sorted cmp x l ≡ₚ x :: l.
Proof.
  induction l as [|y l IH]; [reflexivity|]. simpl.
  destruct (cmp x y <=? 0); [reflexivity|].
  rewrite IH. apply perm_swap.
Qed.

Lemma sort_Permutation (l : list A) : JS.sort cmp l ≡ₚ l.
Proof.
  induction l as [|x l IH]; [reflexivity|]. simpl.
  now rewrite insert_sorted_Permutation, IH.
Qed.

Lemma insert_sorted_HdRel (a x : A) (l : list A) :
  before a x → HdRel before a l → HdRel before a (JS.insert_sorted cmp x l).
Proof.
  intros ax hd. destruct l as [|y l]; simpl.
  - now constructor.
  - destruct (cmp x y <=? 0); constructor; [exact ax|].
    now inversion hd.
Qed.

Lemma insert_sorted_Sorted (x : A) (l : list A) :
  Sorted before l → Sorted before (JS.insert_sorted cmp x l).
Proof.
  induction 1 as [|y l S IH hd]; simpl.
  - repeat constructor.
  - destruct (cmp x y <=? 0) eqn:E.
    + apply Z.leb_le in E. repeat constructor; assumption.
    + apply Z.leb_gt in E. constructor; [exact IH|].
      apply insert_sorted_HdRel; [|exact hd]. now apply cmp_total.
Qed.

Lemma sort_Sorted (l : list A) : Sorted before (JS.sort cmp l).
Proof.
  induction l as [|x l IH]; simpl; [constructor|].
  now apply insert_sorted_Sorted.
Qed.

Lemma StronglySorted_lookup (R : relation A) (l : list A) :
  StronglySorted R l →
  ∀ i j a b, (i < j)%nat → l !! i = Some a → l !! j = Some b → R a b.
Proof.
  induction 1 as [|x l S IH F]; intros i j a b L I J; [now destruct i|].
  destruct j as [|j]; [lia|]. simpl in J.
  destruct i as [|i]; simpl in I.
  - injection I as <-. rewrite Forall_lookup in F. now apply (F j).
  - apply (IH i j); [lia|assumption..].
Qed.

End SortFacts.

(** ** Branch inventory *)
Section Inventory.
Context `{H : Host}.

Lemma arrayIncludes_elem (xs : list string) (x : string) :
  JS.arrayIncludes xs x = true ↔ x ∈ xs.
Proof.
  unfold JS.arrayIncludes. rewrite existsb_exists, list_elem_of_In. split.
  - intros (y & I & E). apply String.eqb_eq in E. now subst.
  - intros I. exists x. split; [exact I | apply String.eqb_refl].
Qed.

Lemma firstIncluded_firstPresent (candidates present : list string) :
  firstPresent candidates present (firstIncluded id candidates present).
Proof.
  induction candidates as [|c candidates IH]; simpl; [constructor|].
  destruct (JS.arrayIncludes present c) eqn:E.
  - exists [], candidates. apply arrayIncludes_elem in E. repeat split; auto.
  - assert (N : c ∉ present).
    { intros I. apply arrayIncludes_elem in I. unfold id in *. congruence. }
    destruct (firstIncluded id candidates present) as [d|]; simpl in *.
    + destruct IH as (earlier & later & -> & I & F).
      exists (c :: earlier), later. repeat split; auto.
    + constructor; assumption.
Qed.

(** The first present candidate is determined by the two lists. *)
Lemma firstPresent_functional (candidates present : list string)
    (choice : option string) :
  firstPresent candidates present choice →
  choice = firstIncluded id candidates present.
Proof.
  revert choice. induction candidates as [|x candidates IH]; intros choice P.
  - destruct choice as [c|]; [|reflexivity].
    destruct P as (earlier & later & E & _). now destruct earlier.
  - cbn [firstIncluded]. change (id x) with x. destruct choice as [c|].
    + destruct P as ([|y earlier] & later & E & I & F); simplify_eq/=.
      * apply arrayIncludes_elem in I. now rewrite I.
      * apply Forall_cons in F as [N F].
        destruct (JS.arrayIncludes present y) eqn:Q;
          [apply arrayIncludes_elem in Q; contradiction|].
        apply IH. exists earlier, later. auto.
    + apply Forall_cons in P as [N F].
      destruct (JS.arrayIncludes present x) eqn:Q;
        [apply arrayIncludes_elem in Q; contradiction|].
      now apply IH.
Qed.

Lemma basePolicy_functional (remoteBranches localBranches : list string)
    (base other : option string) :
  basePolicy remoteBranches localBranches base →
  basePolicy remoteBranches localBranches other →
  other = base.
Proof.
  assert (D : ∀ b, basePolicy remoteBranches localBranches b →
                   b = match firstIncluded id defaultRemoteBranches remoteBranches with
                       | Some c => Some c
                       | None => firstIncluded id defaultLocalBranches localBranches
                       end).
  { intros [c|]; unfold basePolicy.
    - intros [P | [P Q]]; apply firstPresent_functional in P;
        fold defaultRemoteBranches in P; rewrite <- P; [reflexivity|].
      now apply firstPresent_functional in Q.
    - intros [P Q]. apply firstPresent_functional in P, Q.
      fold defaultRemoteBranches in P. now rewrite <- P. }
  intros B O. rewrite (D base B), (D other O). reflexivity.
Qed.

Lemma compareBranches_total (a b : BranchInfo) :
  0 < compareBranches a b → compareBranches b a ≤ 0.
Proof.
  unfold compareBranches. destruct (type a), (type b); simpl; lia.
Qed.

Lemma compareBranches_trans (a b c : BranchInfo) :
  compareBranches a b ≤ 0 → compareBranches b c ≤ 0 → compareBranches a c ≤ 0.
Proof.
  unfold compareBranches. destruct (type a), (type b), (type c); simpl; lia.
Qed.

Lemma sort_inventoryOrdered (l : list BranchInfo) :
  inventoryOrdered (JS.sort compareBranches l).
Proof.
  pose proof (sort_Sorted compareBranches compareBranches_total l) as S.
  apply Sorted_StronglySorted in S.
  2: { intros a b c. apply compareBranches_trans. }
  intros i j a b L I J.
  pose proof (StronglySorted_lookup _ _ S i j a b L I J) as R. simpl in R.
  unfold compareBranches, time_of in R. split.
  - intros [Ta Tb]. rewrite Ta, Tb in R. simpl in R. lia.
  - intros T. rewrite T in R. destruct (type b); simpl in R; lia.
Qed.

(** A successful inventory is the sort of the annotated branches. *)
Lemma getBranchInfos_sorted (options : option BranchInfoOptions) (s : St)
    (records : list BranchInfo) :
  fst (getBranchInfos options s) = Ok records →
  ∃ inputs s1 entries s2 annotated,
    inventoryInputs (flag includeRemote options) s = (Ok inputs, s1) ∧
    fst (mapM (withCommitCount inputs.1.1 inputs.1.2 inputs.2) entries s2)
    = Ok annotated ∧
    records = JS.sort compareBranches annotated.
Proof.
  unfold getBranchInfos. rewrite run_bind.
  destruct (inventoryInputs _ s) as [[[[lm rm] base]|e] s1]; [|discriminate].
  rewrite run_bind.
  destruct (listBranches "refs/heads/" BranchType.local s1) as [[ls|e] s2];
    [|discriminate].
  rewrite run_bind.
  destruct ((if flag includeRemote options
             then listBranches "refs/remotes/" BranchType.remote
             else mret []) s2) as [[rs|e] s3]; [|discriminate].
  rewrite run_bind.
  destruct (mapM (withCommitCount lm rm base) (ls ++ rs) s3) as [[ys|e] s4] eqn:E;
    [|discriminate].
  rewrite run_ret. simpl. intros [= <-].
  exists (lm, rm, base), s1, (ls ++ rs), s3, ys. simpl. now rewrite E.
Qed.

(** C4. Every inventory the query returns is ordered: no remote record
    comes before a local one, and within a type the commit dates do not
    increase, a missing date counting as time 0. *)
Theorem getBranchInfos_ordered (options : option BranchInfoOptions) (s : St)
    (records : list BranchInfo) :
  fst (getBranchInfos options s) = Ok records → inventoryOrdered records.
Proof.
  intros R. apply getBranchInfos_sorted in R as (? & ? & ? & ? & ys & _ & _ & ->).
  apply sort_inventoryOrdered.
Qed.

Lemma mapM_Forall {A B} (f : A → M B) (P : B → Prop) :
  (∀ x s y, fst (f x s) = Ok y → P y) →
  ∀ xs s ys, fst (mapM f xs s) = Ok ys → Forall P ys.
Proof.
  intros Pf. induction xs as [|x xs IH]; intros s ys.
  - simpl. intros [= <-]. constructor.
  - simpl. rewrite run_bind.
    destruct (f x s) as [[y|e] s1] eqn:E; [|discriminate].
    rewrite run_bind.
    destruct (mapM f xs s1) as [[zs|e] s2] eqn:E2; [|discriminate].
    rewrite run_ret. simpl. intros [= <-]. constructor.
    + apply (Pf x s). now rewrite E.
    + apply (IH s1). now rewrite E2.
Qed.

(** C6. The base branch is the first present of [origin/main],
    [origin/master], [origin/develop] among the remote branches, else the
    first present of [main], [master], [develop] among the local ones, else
    none, and it is the only answer that policy allows; an inventory
    computed without a base has zero ahead and zero behind in every
    record. *)
Theorem getBaseBranch_policy (s : St) :
  (∀ remoteBranches localBranches w1 w2,
     exec (Branch ["-r"]) (world s) = (inr remoteBranches, w1) →
     exec BranchLocal w1 = (inr localBranches, w2) →
     ∃ base, fst (getBaseBranch s) = Ok base ∧
             basePolicy (all remoteBranches) (all localBranches) base ∧
             ∀ other, basePolicy (all remoteBranches) (all localBranches) other →
                      other = base) ∧
  (∀ options localMerged remoteMerged s1 records,
     inventoryInputs (flag includeRemote options) s
     = (Ok (localMerged, remoteMerged, None), s1) →
     fst (getBranchInfos options s) = Ok records →
     Forall (λ b, ahead b = number_zero ∧ behind b = number_zero) records).
Proof.
  split.
  - intros rs ls w1 w2 E1 E2.
    cut (∃ base, fst (getBaseBranch s) = Ok base ∧ basePolicy (all rs) (all ls) base).
    { intros (base & R & P). exists base. split; [exact R|]. split; [exact P|].
      intros other O. exact (basePolicy_functional _ _ _ _ P O). }
    unfold getBaseBranch. run_monad. rewrite E1.
    change (firstIncluded JS.trim defaultRemoteBranches (all rs))
      with (firstIncluded id defaultRemoteBranches (all rs)).
    pose proof (firstIncluded_firstPresent defaultRemoteBranches (all rs)) as PR.
    destruct (firstIncluded id defaultRemoteBranches (all rs)) as [c|].
    + exists (Some c). split; [reflexivity|]. left. exact PR.
    + cbn -[firstIncluded]. rewrite E2.
      pose proof (firstIncluded_firstPresent defaultLocalBranches (all ls)) as PL.
      destruct (firstIncluded id defaultLocalBranches (all ls)) as [c|].
      * exists (Some c). split; [reflexivity|]. right. split; assumption.
      * exists None. split; [reflexivity|]. split; assumption.
  - intros options lm rm s1 records I R.
    apply getBranchInfos_sorted in R as (inputs & s1' & es & s2 & ys & I' & My & ->).
    rewrite I in I'. injection I' as <- <-. simpl in My.
    rewrite (sort_Permutation compareBranches ys).
    refine (mapM_Forall _ _ _ es s2 ys My).
    intros x s0 y R. unfold withCommitCount in R. rewrite run_bind, run_ret in R.
    simpl in R. injection R as <-. split; reflexivity.
Qed.

End Inventory.

(** The inventory of [repo] with its remote branches. *)
Lemma getBranchInfos_ordered_witness :
  fst (getBranchInfos (Some {| includeRemote := Some true |})
         (Fixture.start Fixture.repo)) = Ok Fixture.inventory ∧
  inventoryOrdered Fixture.inventory.
Proof.
  assert (E : fst (getBranchInfos (Some {| includeRemote := Some true |})
                     (Fixture.start Fixture.repo)) = Ok Fixture.inventory).
  { reflexivity. }
  split; [exact E|].
  exact (getBranchInfos_ordered _ _ _ E).
Defined.

(** [repo] has [origin/main]; [unconventional] has none of the six names. *)
Lemma getBaseBranch_policy_witness :
  (∃ base,
     fst (getBaseBranch (Fixture.start Fixture.repo)) = Ok base ∧
     basePolicy (Fixture.shortNames "refs/remotes/" Fixture.repo)
                (Fixture.shortNames "refs/heads/" Fixture.repo) base) ∧
  fst (getBranchInfos None (Fixture.start Fixture.unconventional))
  = Ok Fixture.unconventionalInventory ∧
  Forall (λ b, ahead b = @number_zero Fixture.host ∧
               behind b = @number_zero Fixture.host)
         Fixture.unconventionalInventory.
Proof.
  split.
  - destruct (getBaseBranch_policy (Fixture.start Fixture.repo)) as [policy _].
    destruct (policy {| all := Fixture.shortNames "refs/remotes/" Fixture.repo |}
                     {| all := Fixture.shortNames "refs/heads/" Fixture.repo |}
                     Fixture.repo Fixture.repo eq_refl eq_refl)
      as (base & R & P & _).
    exists base. split; [exact R | exact P].
  - assert (E : fst (getBranchInfos None (Fixture.start Fixture.unconventional))
                = Ok Fixture.unconventionalInventory).
    { reflexivity. }
    split; [exact E|].
    destruct (getBaseBranch_policy (Fixture.start Fixture.unconventional))
      as [_ zeros].
    set (inputs := inventoryInputs false (Fixture.start Fixture.unconventional)).
    refine (zeros None
              (match fst inputs with Ok x => x.1.1 | Throw _ => ∅ end)
              (match fst inputs with Ok x => x.1.2 | Throw _ => ∅ end)
              (snd inputs) _ _ E).
    reflexivity.
Defined.

(** ** The validator model against the repository's test suite *)

(** The expectations of [tests/isValidBranchName.test.ts]. *)
Lemma isValidBranchName_test_suite :
  forallb Validator.isValidBranchName
    ["main"; "develop"; "feature"; "feature-branch"; "bug-fix";
     "feature_branch"; "bug_fix"; "release.1.0"; "v1.2.3";
     "feature/new-feature"; "bugfix/issue-123"; "release/v1.0.0";
     "feature123"; "feature/ABC-123_test.v1"; "release/2024.01.01";
     "a"; "1"; JS.repeat "a" 255; "feature/sub/branch"; "a/b/c/d/e"] = true ∧
  existsb Validator.isValidBranchName
    [""; "feature@branch"; "bug#fix"; "test branch"; "feature:branch";
     "feature..branch"; "test..test"; "/feature"; "/main"; "feature/"; "main/";
     "feature//branch"; "test//test"; "feature."; "branch.";
     "feature/.hidden"; ".hidden/branch"; "feature/branch.lock"; "test.lock";
     "feature/../x"] = false.
Proof. split; vm_compute; reflexivity. Qed.

(** * Further properties *)

(** ** Splitting and joining *)

Lemma split_nonempty (sep : ascii) (s : string) : JS.split sep s ≠ [].
Proof.
  destruct s as [|c s]; simpl; [discriminate|].
  destruct (Ascii.eqb c sep); [discriminate|].
  destruct (JS.split sep s); discriminate.
Qed.

Lemma join_cons_char (sep : string) (c : ascii) (h : string) (t : list string) :
  JS.join sep (String c h :: t) = String c (JS.join sep (h :: t)).
Proof. destruct t; reflexivity. Qed.

(** Joining the pieces of a split gives the string back. *)
Lemma join_split (sep : ascii) (s : string) :
  JS.join (String sep "") (JS.split sep s) = s.
Proof.
  induction s as [|c s IH]; [reflexivity|]. simpl.
  destruct (Ascii.eqb_spec c sep) as [->|N].
  - pose proof (split_nonempty sep s) as NE.
    destruct (JS.split sep s) as [|h t]; [contradiction|].
    change (JS.join (String sep "") ("" :: h :: t))
      with (String sep (JS.join (String sep "") (h :: t))).
    now rewrite IH.
  - destruct (JS.split sep s) as [|h t] eqn:E.
    + now destruct (split_nonempty sep s).
    + rewrite join_cons_char. now rewrite IH.
Qed.

(** No piece of a split holds the separator. *)
Lemma split_pieces (sep : ascii) (s : string) :
  Forall (λ piece, every (isNot sep) piece = true) (JS.split sep s).
Proof.
  induction s as [|c s IH]; simpl; [repeat constructor|].
  destruct (Ascii.eqb c sep) eqn:E.
  - constructor; [reflexivity | exact IH].
  - destruct (JS.split sep s) as [|h t]; [repeat constructor; simpl|].
    + unfold isNot. now rewrite E.
    + inversion IH as [|? ? Hh Ht]; subst. constructor; [|exact Ht].
      simpl. unfold isNot at 1. now rewrite E.
Qed.

Lemma isEmpty_true (s : string) : JS.isEmpty s = true ↔ s = "".
Proof. destruct s; simpl; split; intros E; try reflexivity; discriminate E. Qed.

Lemma truthy_nonempty (s : string) : JS.truthy s = true ↔ s ≠ "".
Proof.
  destruct s; simpl; split; intros E; try reflexivity; try discriminate.
  now destruct E.
Qed.

(** ** Records of the reference lister *)
Section ListerRecords.
Context `{H : Host}.

(** A line that parses gives a record of the requested type with a
    non-empty ref that is not a symbolic [HEAD]; a local record has no
    remote and is named by its ref; a remote record has a non-empty remote
    without separator and a non-empty name other than [HEAD], and its ref
    is the remote and the name joined by a separator. *)
Theorem parseBranchLine_record (line : string) (type : BranchType.t)
    (e : BranchEntry) :
  parseBranchLine line type = Some e →
  entry_type e = type ∧
  entry_ref e ≠ "" ∧
  JS.endsWith (entry_ref e) "/HEAD" = false ∧
  match type with
  | BranchType.local => entry_remote e = None ∧ entry_name e = entry_ref e
  | BranchType.remote =>
      ∃ r, entry_remote e = Some r ∧ r ≠ "" ∧
           every (isNot "/") r = true ∧
           entry_name e ≠ "" ∧ entry_name e ≠ "HEAD" ∧
           entry_ref e = r +:+ "/" +:+ entry_name e
  end.
Proof.
  unfold parseBranchLine.
  set (shortRef := default "" _).
  destruct (JS.isEmpty shortRef) eqn:NE; [discriminate|].
  destruct (JS.endsWith shortRef "/HEAD") eqn:HD; [discriminate|]. simpl.
  assert (N : shortRef ≠ "") by (intros Q; rewrite Q in NE; discriminate).
  destruct type.
  - intros [= <-]. simpl. auto.
  - pose proof (join_split "/" shortRef) as J.
    pose proof (split_pieces "/" shortRef) as P.
    destruct (JS.split "/" shortRef) as [|r parts]; [discriminate|].
    destruct (JS.truthy r) eqn:Tr; [|discriminate]. simpl.
    destruct (JS.truthy (JS.join "/" parts)) eqn:Tn; [|discriminate]. simpl.
    destruct (String.eqb (JS.join "/" parts) "HEAD") eqn:Q; [discriminate|].
    intros [= <-]. simpl.
    split; [reflexivity|]. split; [exact N|]. split; [exact HD|].
    exists r. split; [reflexivity|].
    split; [now apply truthy_nonempty|].
    split; [now inversion P|].
    split; [now apply truthy_nonempty|].
    split; [now apply String.eqb_neq|].
    destruct parts as [|p parts]; [discriminate Tn|].
    symmetry. exact J.
Qed.

(** The part of the record shape that does not depend on the type asked
    for. *)
Lemma parseBranchLine_record_shape (line : string) (type : BranchType.t)
    (e : BranchEntry) :
  parseBranchLine line type = Some e →
  (is_Some (entry_remote e) ↔ entry_type e = BranchType.remote) ∧
  entry_ref e ≠ "" ∧ JS.endsWith (entry_ref e) "/HEAD" = false ∧
  entry_type e = type.
Proof.
  unfold parseBranchLine.
  set (shortRef := default "" _).
  destruct (JS.isEmpty shortRef) eqn:NE; [discriminate|].
  destruct (JS.endsWith shortRef "/HEAD") eqn:HD; [discriminate|]. simpl.
  assert (N : shortRef ≠ "") by (intros Q; rewrite Q in NE; discriminate).
  destruct type.
  - intros [= <-]. simpl.
    split; [split; [intros [? ?]; discriminate | discriminate] | auto].
  - destruct (JS.split "/" shortRef) as [|r parts]; [discriminate|].
    destruct (negb _ || _); [discriminate|].
    intros [= <-]. simpl.
    split; [split; [reflexivity | eauto] | auto].
Qed.

End ListerRecords.

(** [origin/feature/x] as [for-each-ref] prints it. *)
Lemma parseBranchLine_record_witness :
  let line := "refs/remotes/origin/feature/x" +:+ String NUL "2024-05-01 12:00:00 +0000"
              +:+ String NUL "a1a1a1a" +:+ String NUL "subject" in
  let e := {| entry_ref := "origin/feature/x"; entry_name := "feature/x";
              entry_type := BranchType.remote; entry_remote := Some "origin";
              entry_lastCommitDate := Some 1714564800000;
              entry_lastCommitSha := Some "a1a1a1a";
              entry_lastCommitSubject := Some "subject" |} in
  @parseBranchLine Fixture.host line BranchType.remote = Some e ∧
  ∃ r, entry_remote e = Some r ∧ entry_ref e = r +:+ "/" +:+ entry_name e.
Proof.
  intros line e. split; [reflexivity|].
  destruct (@parseBranchLine_record Fixture.host line BranchType.remote e eq_refl)
    as (_ & _ & _ & r & R & _ & _ & _ & _ & J).
  exists r. split; [exact R | exact J].
Defined.

(** ** Records of the inventory *)
Section InventoryRecords.
Context `{H : Host}.

Lemma listBranches_parsed (refPrefix : string) (type : BranchType.t)
    (s s' : St) (entries : list BranchEntry) :
  listBranches refPrefix type s = (Ok entries, s') →
  Forall (λ e, ∃ line, parseBranchLine line type = Some e) entries.
Proof.
  unfold listBranches. rewrite run_bind.
  destruct (call _ s) as [[output|e] s1]; [|discriminate].
  rewrite run_ret. intros [= <- _].
  apply Forall_forall. intros e I.
  apply list_elem_of_omap in I as (line & _ & P). now exists line.
Qed.

Lemma withCommitCount_entry (localMerged remoteMerged : gset string)
    (base : option string) (e : BranchEntry) (s : St) (b : BranchInfo) :
  fst (withCommitCount localMerged remoteMerged base e s) = Ok b → entryOf b = e.
Proof.
  unfold withCommitCount. rewrite run_bind.
  destruct (match base with
            | Some b0 => if JS.truthy b0 then getAheadBehind (entry_ref e) b0
                         else mret zeroAheadBehind
            | None => mret zeroAheadBehind
            end s) as [[counts|err] s1]; [|discriminate].
  rewrite run_ret. simpl. intros [= <-]. now destruct e.
Qed.

Lemma mapM_withCommitCount_entries (localMerged remoteMerged : gset string)
    (base : option string) (entries : list BranchEntry) (s : St)
    (annotated : list BranchInfo) :
  fst (mapM (withCommitCount localMerged remoteMerged base) entries s) = Ok annotated →
  entryOf <$> annotated = entries.
Proof.
  revert s annotated. induction entries as [|e entries IH]; intros s annotated.
  - simpl. now intros [= <-].
  - simpl. rewrite run_bind.
    destruct (withCommitCount localMerged remoteMerged base e s) as [[b|err] s1] eqn:E;
      [|discriminate].
    rewrite run_bind.
    destruct (mapM _ entries s1) as [[bs|err] s2] eqn:E2; [|discriminate].
    rewrite run_ret. simpl. intros [= <-]. simpl. f_equal.
    + apply (withCommitCount_entry localMerged remoteMerged base e s). now rewrite E.
    + apply (IH s1). now rewrite E2.
Qed.

(** The steps of a successful inventory. *)
Lemma getBranchInfos_steps (options : option BranchInfoOptions) (s : St)
    (records : list BranchInfo) :
  fst (getBranchInfos options s) = Ok records →
  ∃ inputs s1 locals s2 remotes s3,
    inventoryInputs (flag includeRemote options) s = (Ok inputs, s1) ∧
    listBranches "refs/heads/" BranchType.local s1 = (Ok locals, s2) ∧
    (if flag includeRemote options
     then listBranches "refs/remotes/" BranchType.remote
     else mret []) s2 = (Ok remotes, s3) ∧
    entryOf <$> records ≡ₚ locals ++ remotes.
Proof.
  unfold getBranchInfos. rewrite run_bind.
  destruct (inventoryInputs _ s) as [[[[lm rm] base]|e] s1] eqn:I; [|discriminate].
  simpl in I.
  rewrite run_bind.
  destruct (listBranches "refs/heads/" BranchType.local s1) as [[ls|e] s2] eqn:L;
    [|discriminate].
  rewrite run_bind.
  destruct ((if flag includeRemote options
             then listBranches "refs/remotes/" BranchType.remote
             else mret []) s2) as [[rs|e] s3] eqn:R; [|discriminate].
  rewrite run_bind.
  destruct (mapM (withCommitCount lm rm base) (ls ++ rs) s3) as [[ys|e] s4] eqn:E;
    [|discriminate].
  rewrite run_ret. simpl. intros [= <-].
  exists (lm, rm, base), s1, ls, s2, rs, s3.
  split; [reflexivity|]. split; [exact L|]. split; [exact R|].
  rewrite (sort_Permutation compareBranches ys).
  erewrite mapM_withCommitCount_entries; [reflexivity|]. now rewrite E.
Qed.


(** In every inventory a record names a remote exactly when it is of type
    remote, no record has an empty ref or stands for a symbolic [HEAD], and
    unless remote branches were asked for every record is local. *)
Theorem getBranchInfos_record_shape
    (options : option BranchInfoOptions) (s : St) (records : list BranchInfo) :
  fst (getBranchInfos options s) = Ok records →
  Forall (λ b, (is_Some (remote b) ↔ type b = BranchType.remote) ∧
               ref b ≠ "" ∧ JS.endsWith (ref b) "/HEAD" = false) records ∧
  (flag includeRemote options = false →
   Forall (λ b, type b = BranchType.local) records).
Proof.
  intros R. apply getBranchInfos_steps in R
    as (inputs & s1 & ls & s2 & rs & s3 & _ & L & Rm & P).
  apply listBranches_parsed in L.
  assert (Rs : Forall (λ e, ∃ line, parseBranchLine line BranchType.remote = Some e) rs).
  { destruct (flag includeRemote options).
    - now apply listBranches_parsed in Rm.
    - rewrite run_ret in Rm. injection Rm as <- _. constructor. }
  assert (shape : ∀ e t line, parseBranchLine line t = Some e →
            (is_Some (entry_remote e) ↔ entry_type e = BranchType.remote) ∧
            entry_ref e ≠ "" ∧ JS.endsWith (entry_ref e) "/HEAD" = false ∧
            entry_type e = t).
  { intros e t line Pl. apply parseBranchLine_record_shape in Pl. exact Pl. }
  split.
  - apply Forall_forall. intros b I.
    assert (Ie : entryOf b ∈ ls ++ rs).
    { rewrite <- P. now apply list_elem_of_fmap_2. }
    apply elem_of_app in Ie as [Ie|Ie].
    + rewrite Forall_forall in L. destruct (L _ Ie) as [line Pl].
      destruct (shape _ _ _ Pl) as (A & B & C & _). auto.
    + rewrite Forall_forall in Rs. destruct (Rs _ Ie) as [line Pl].
      destruct (shape _ _ _ Pl) as (A & B & C & _). auto.
  - intros F. rewrite F in Rm. rewrite run_ret in Rm. injection Rm as <- _.
    rewrite app_nil_r in P.
    apply Forall_forall. intros b I.
    assert (Ie : entryOf b ∈ ls).
    { rewrite <- P. now apply list_elem_of_fmap_2. }
    rewrite Forall_forall in L. destruct (L _ Ie) as [line Pl].
    now destruct (shape _ _ _ Pl) as (_ & _ & _ & T).
Qed.

End InventoryRecords.


(** The local-only inventory of [unconventional]. *)
Lemma getBranchInfos_record_shape_witness :
  Forall (λ b, (is_Some (remote b) ↔ type b = BranchType.remote) ∧
               ref b ≠ "" ∧ JS.endsWith (ref b) "/HEAD" = false)
         Fixture.unconventionalInventory ∧
  Forall (λ b, type b = BranchType.local) Fixture.unconventionalInventory.
Proof.
  destruct (getBranchInfos_record_shape None
              (Fixture.start Fixture.unconventional)
              Fixture.unconventionalInventory eq_refl) as [shape locals].
  split; [exact shape | exact (locals eq_refl)].
Defined.

(** ** More on lines and pieces *)

Lemma split_piece_cons (sep : ascii) (piece rest : string) :
  every (isNot sep) piece = true →
  JS.split sep (piece +:+ String sep rest) = piece :: JS.split sep rest.
Proof.
  induction piece as [|a piece IH]; intros E; [simpl; now rewrite Ascii.eqb_refl|].
  simpl in E. apply andb_prop in E as [A E].
  rewrite append_cons, split_cons_other.
  - now rewrite (IH E).
  - unfold isNot in A. now destruct (Ascii.eqb a sep).
Qed.

Lemma split_piece (sep : ascii) (piece : string) :
  every (isNot sep) piece = true → JS.split sep piece = [piece].
Proof.
  induction piece as [|a piece IH]; intros E; [reflexivity|].
  simpl in E. apply andb_prop in E as [A E].
  rewrite split_cons_other.
  - now rewrite (IH E).
  - unfold isNot in A. now destruct (Ascii.eqb a sep).
Qed.

Lemma noWhiteSpace_isNot (sep : ascii) (s : string) :
  JS.isWhiteSpace sep = true → noWhiteSpace s = true → every (isNot sep) s = true.
Proof.
  intros S. induction s as [|a s IH]; [reflexivity|]. simpl.
  intros [A W]%andb_prop. rewrite (IH W), andb_true_r.
  unfold isNot. destruct (Ascii.eqb_spec a sep) as [->|]; [|reflexivity].
  now rewrite S in A.
Qed.

Lemma trimEnd_word_line (word : string) :
  isWord word = true → JS.trimEnd (word +:+ String LF "") = word.
Proof.
  intros W. rewrite trimEnd_append. simpl.
  now apply trimEnd_noWhiteSpace, isWord_noWhiteSpace.
Qed.

(** ** Best-effort operations and the divergence counts *)
Section BestEffort.
Context `{H : Host}.

(** The advisory operations always resolve: the divergence count, the
    cherry-pick abort, and the resolution of a branch to its qualified ref,
    which answers the name itself or the name under [origin/]. *)
Theorem advisory_operations_resolve (branch base : string) (s : St) :
  (∃ counts, fst (getAheadBehind branch base s) = Ok counts) ∧
  fst (abortCherryPick s) = Ok tt ∧
  (∃ qualified, fst (resolveBranchRef branch s) = Ok qualified ∧
                (qualified = branch ∨ qualified = "origin/" +:+ branch)).
Proof.
  split; [|split].
  - unfold getAheadBehind. destruct (String.eqb branch base); [eauto|].
    run_monad. answer; eauto.
  - unfold abortCherryPick. run_monad. answer; reflexivity.
  - unfold resolveBranchRef. run_monad. answer; eauto.
Qed.

(** The count query prints the commits behind first and the commits ahead
    second, separated by a tab: the record takes [behind] from the first
    number and [ahead] from the second. *)
Theorem getAheadBehind_reads_behind_then_ahead
    (branch base behindText aheadText : string) (s : St) (w : World) :
  branch ≠ base →
  isWord behindText = true → isWord aheadText = true →
  exec (revListCount branch base) (world s)
  = (inr (behindText +:+ String TAB aheadText +:+ String LF ""), w) →
  fst (getAheadBehind branch base s)
  = Ok {| ab_ahead := Number aheadText; ab_behind := Number behindText |}.
Proof.
  intros N Wb Wa E. unfold getAheadBehind.
  destruct (String.eqb_spec branch base) as [|_]; [contradiction|].
  unfold revListCount in E. run_monad. rewrite E. simpl.
  assert (T : JS.trim (behindText +:+ String TAB aheadText +:+ String LF "")
              = behindText +:+ String TAB aheadText).
  { unfold JS.trim. rewrite trimStart_word by exact Wb.
    rewrite trimEnd_append.
    change (JS.trimEnd (String TAB aheadText +:+ String LF ""))
      with (let r := JS.trimEnd (aheadText +:+ String LF "") in
            if JS.isEmpty r && JS.isWhiteSpace TAB then "" else String TAB r).
    rewrite (trimEnd_word_line aheadText Wa). cbn zeta.
    rewrite (isWord_nonempty aheadText Wa). reflexivity. }
  rewrite T.
  rewrite split_piece_cons
    by (apply noWhiteSpace_isNot; [reflexivity | now apply isWord_noWhiteSpace]).
  rewrite split_piece
    by (apply noWhiteSpace_isNot; [reflexivity | now apply isWord_noWhiteSpace]).
  reflexivity.
Qed.

End BestEffort.

(** [feature] is two ahead of and none behind [origin/main]. *)
Lemma getAheadBehind_reads_behind_then_ahead_witness :
  fst (getAheadBehind "feature" "origin/main" (Fixture.start Fixture.repo))
  = Ok (@Build_AheadBehind Fixture.host (Some 2) (Some 0)).
Proof.
  exact (getAheadBehind_reads_behind_then_ahead "feature" "origin/main" "0" "2"
           (Fixture.start Fixture.repo) Fixture.repo
           ltac:(discriminate) eq_refl eq_refl eq_refl).
Defined.

(** ** Trimming *)

Lemma trimStart_startsClean (s : string) : startsClean (JS.trimStart s) = true.
Proof.
  induction s as [|c s IH]; [reflexivity|]. simpl.
  destruct (JS.isWhiteSpace c) eqn:W; [exact IH|]. simpl. now rewrite W.
Qed.

Lemma trimStart_clean (s : string) : startsClean s = true → JS.trimStart s = s.
Proof. destruct s as [|c s]; [reflexivity|]. simpl. now destruct (JS.isWhiteSpace c). Qed.

Lemma trimEnd_startsClean (s : string) :
  startsClean s = true → startsClean (JS.trimEnd s) = true.
Proof.
  destruct s as [|c s]; [reflexivity|]. simpl. intros C.
  destruct (JS.isWhiteSpace c) eqn:W; [discriminate|]. rewrite andb_false_r. simpl.
  now rewrite W.
Qed.

Lemma trimEnd_idempotent (s : string) : JS.trimEnd (JS.trimEnd s) = JS.trimEnd s.
Proof.
  induction s as [|c s IH]; [reflexivity|]. simpl.
  destruct (JS.isEmpty (JS.trimEnd s) && JS.isWhiteSpace c) eqn:E; [reflexivity|].
  simpl. rewrite IH, E. reflexivity.
Qed.

Lemma trim_startsClean (s : string) : startsClean (JS.trim s) = true.
Proof. apply trimEnd_startsClean, trimStart_startsClean. Qed.

(** Trimming twice is trimming once. *)
Lemma trim_idempotent (s : string) : JS.trim (JS.trim s) = JS.trim s.
Proof.
  unfold JS.trim at 1. rewrite trimStart_clean by apply trim_startsClean.
  unfold JS.trim. apply trimEnd_idempotent.
Qed.

Lemma every_trimStart (p : ascii → bool) (s : string) :
  every p s = true → every p (JS.trimStart s) = true.
Proof.
  induction s as [|c s IH]; [reflexivity|]. simpl. intros [C E]%andb_prop.
  destruct (JS.isWhiteSpace c); [now apply IH|]. simpl. now rewrite C, E.
Qed.

Lemma every_trimEnd (p : ascii → bool) (s : string) :
  every p s = true → every p (JS.trimEnd s) = true.
Proof.
  induction s as [|c s IH]; [reflexivity|]. simpl. intros [C E]%andb_prop.
  destruct (JS.isEmpty (JS.trimEnd s) && JS.isWhiteSpace c); [reflexivity|].
  simpl. now rewrite C, IH.
Qed.

Lemma every_removeAll (c : ascii) (s : string) :
  every (isNot c) (JS.removeAll c s) = true.
Proof.
  induction s as [|a s IH]; [reflexivity|]. simpl.
  destruct (Ascii.eqb a c) eqn:E; [exact IH|]. simpl.
  unfold isNot at 1. now rewrite E, IH.
Qed.

(** ** Prefixes *)

Lemma startsWith_append (s p : string) :
  JS.startsWith s p = true → s = p +:+ JS.drop (String.length p) s.
Proof.
  revert s. induction p as [|a p IH]; intros s; [reflexivity|].
  destruct s as [|b s]; [discriminate|]. simpl.
  intros [A P]%andb_prop. apply Ascii.eqb_eq in A. subst b.
  rewrite append_cons. f_equal. now apply IH.
Qed.

Lemma startsWith_prefix (p rest : string) : JS.startsWith (p +:+ rest) p = true.
Proof.
  induction p as [|a p IH]; [now destruct rest|].
  rewrite append_cons. simpl. now rewrite Ascii.eqb_refl, IH.
Qed.

Lemma drop_prefix (p rest : string) : JS.drop (String.length p) (p +:+ rest) = rest.
Proof. induction p as [|a p IH]; [now destruct rest | exact IH]. Qed.

Lemma replaceFirst_prefix (p s : string) :
  JS.startsWith s p = true →
  JS.replaceFirst p "" s = JS.drop (String.length p) s.
Proof. intros E. destruct s; cbn [JS.replaceFirst]; rewrite E; reflexivity. Qed.

Lemma includes_append (a b p : string) :
  JS.includes b p = true → JS.includes (a +:+ b) p = true.
Proof.
  intros I. induction a as [|c a IH]; [exact I|].
  rewrite append_cons. simpl. rewrite IH. apply orb_true_r.
Qed.

(** ** Merged sets, remote branches and the common base *)
Section Listings.
Context `{H : Host}.

(** No name in a merged set is empty, carries the current-branch star or
    surrounding white space, or is a symbolic-ref line with an arrow. *)
Theorem getMergedSet_members (type : BranchType.t) (s s' : St)
    (merged : gset string) (name : string) :
  getMergedSet type s = (Ok merged, s') →
  name ∈ merged →
  name ≠ "" ∧ JS.trim name = name ∧
  every (isNot "*") name = true ∧ JS.includes name " -> " = false.
Proof.
  unfold getMergedSet. rewrite run_bind.
  destruct (call _ s) as [[output|e] s1]; [|discriminate].
  rewrite run_ret. intros [= <- _]. rewrite elem_of_list_to_set.
  rewrite !list_elem_of_filter. intros (A & T & I).
  apply list_elem_of_fmap in I as (line & -> & _).
  split; [|split; [|split]].
  - apply truthy_nonempty. now apply Is_true_true.
  - apply trim_idempotent.
  - apply every_trimEnd, every_trimStart, every_removeAll.
  - apply Is_true_true in A. now apply negb_true_iff in A.
Qed.

(** [getAllBranches] answers the branches listed under [origin/] whose
    names do not contain [HEAD], in listing order and without the prefix:
    putting the prefix back gives exactly those listed names, and no
    answered name contains [HEAD]. *)
Theorem getAllBranches_origin (s : St) (branches : BranchSummary) (w : World) :
  exec (Branch ["-r"]) (world s) = (inr branches, w) →
  ∃ names,
    fst (getAllBranches s) = Ok names ∧
    (λ n, "origin/" +:+ n) <$> names
    = filter (λ b, Is_true (JS.startsWith b "origin/" && negb (JS.includes b "HEAD")))
             (all branches) ∧
    Forall (λ n, JS.includes n "HEAD" = false) names.
Proof.
  intros E. unfold getAllBranches. run_monad. rewrite E. simpl.
  eexists. split; [reflexivity|].
  set (kept := filter _ (all branches)).
  assert (K : Forall (λ b, JS.startsWith b "origin/" = true ∧
                           JS.includes b "HEAD" = false) kept).
  { apply Forall_forall. intros b [P _]%list_elem_of_filter.
    apply Is_true_true, andb_prop in P as [P N].
    split; [exact P | now apply negb_true_iff in N]. }
  clearbody kept. induction K as [|b kept [P N] K [IH1 IH2]]; [split; constructor|].
  rewrite !fmap_cons, (replaceFirst_prefix "origin/" b P). split.
  - f_equal; [|exact IH1]. symmetry. now apply (startsWith_append b "origin/").
  - constructor; [|exact IH2].
    destruct (JS.includes (JS.drop (String.length "origin/") b) "HEAD") eqn:I;
      [|reflexivity].
    rewrite (startsWith_append b "origin/" P) in N.
    now rewrite (includes_append "origin/" _ "HEAD" I) in N.
Qed.

(** The temporary branch of the cherry-pick strategy starts from the very
    ref the merge base is computed against: when the lookup of the
    target's tracking ref answers alike in both repositories,
    [setupCherryPick] hands [checkout -b] the start point that
    [getMergeBase] hands [merge-base] as its first argument, and the second
    branch goes to [merge-base] as given. *)
Theorem setupCherryPick_getMergeBase_agree
    (target other : string) (s s' : St) :
  isValidBranchName target = true →
  isValidBranchName other = true →
  resolves (exec (showRef ("refs/remotes/origin/" +:+ target)) (world s))
  = resolves (exec (showRef ("refs/remotes/origin/" +:+ target)) (world s')) →
  ∃ startPoint,
    Checkout ["-b"; tempBranchName; startPoint]
    ∈ inv_cmd <$> journal (snd (setupCherryPick target s)) ∧
    Raw ["merge-base"; startPoint; other]
    ∈ inv_cmd <$> journal (snd (getMergeBase target other s')).
Proof.
  intros V V' R. unfold setupCherryPick, getMergeBase, resolveBranchRef, resolves in *.
  rewrite V, V'. simpl. run_monad.
  destruct (exec (showRef ("refs/remotes/origin/" +:+ target)) (world s))
    as [[e1|r1] w1];
    destruct (exec (showRef ("refs/remotes/origin/" +:+ target)) (world s'))
      as [[e2|r2] w2]; simpl in R; try discriminate R; simpl.
  all: eexists; split; [answer | answer];
    rewrite !fmap_app; simpl;
    apply elem_of_app; right; apply list_elem_of_here.
Qed.

End Listings.

(** The remote merged set of [repo]: [origin/main], and not the arrow line. *)
Lemma getMergedSet_members_witness :
  let run := getMergedSet BranchType.remote (Fixture.start Fixture.repo) in
  let merged := match fst run with Ok m => m | Throw _ => ∅ end in
  "origin/main" ∈ merged ∧
  JS.trim "origin/main" = "origin/main" ∧
  JS.includes "origin/main" " -> " = false.
Proof.
  intros run merged.
  assert (I : "origin/main" ∈ merged).
  { apply (bool_decide_unpack _). vm_compute. exact I. }
  split; [exact I|].
  destruct (getMergedSet_members BranchType.remote (Fixture.start Fixture.repo)
              (snd run) merged "origin/main" eq_refl I) as (_ & T & _ & A).
  split; [exact T | exact A].
Defined.

(** The remote branches of [repo]: only [main] is under [origin] and is not
    a [HEAD]. *)
Lemma getAllBranches_origin_witness :
  ∃ names,
    fst (getAllBranches (Fixture.start Fixture.repo)) = Ok names ∧
    (λ n, "origin/" +:+ n) <$> names = ["origin/main"] ∧
    Forall (λ n, JS.includes n "HEAD" = false) names.
Proof.
  exact (getAllBranches_origin (Fixture.start Fixture.repo)
           {| all := ["origin/main"; "origin/HEAD"; "upstream/topic"] |}
           Fixture.repo eq_refl).
Defined.

(** From [repo], both operations on [main] work from [origin/main]. *)
Lemma setupCherryPick_getMergeBase_agree_witness :
  ∃ startPoint,
    Checkout ["-b"; "temp-rebase-4242"; startPoint]
    ∈ inv_cmd <$> journal (snd (setupCherryPick "main" (Fixture.start Fixture.repo))) ∧
    Raw ["merge-base"; startPoint; "feature"]
    ∈ inv_cmd <$> journal (snd (getMergeBase "main" "feature"
                                  (Fixture.start Fixture.unreadable))).
Proof.
  exact (setupCherryPick_getMergeBase_agree "main" "feature"
           (Fixture.start Fixture.repo) (Fixture.start Fixture.unreadable)
           eq_refl eq_refl eq_refl).
Defined.

(** ** The default branch of a remote *)

Lemma lineTerminator_whiteSpace (c : ascii) :
  Text.isLineTerminator c = true → JS.isWhiteSpace c = true.
Proof. destruct c as [[] [] [] [] [] [] [] []]; simpl; congruence. Qed.

Lemma takeLine_word (name rest : string) :
  noWhiteSpace name = true →
  Text.takeLine (name +:+ String LF rest) = name.
Proof.
  induction name as [|c name IH]; intros W; [reflexivity|].
  simpl in W. apply andb_prop in W as [C W].
  rewrite append_cons. simpl.
  destruct (Text.isLineTerminator c) eqn:L.
  - apply lineTerminator_whiteSpace in L. now rewrite L in C.
  - now rewrite (IH W).
Qed.

Lemma spacesThenLine_word (name rest : string) :
  isWord name = true →
  Text.spacesThenLine (" " +:+ name +:+ String LF rest) = Some name.
Proof.
  intros W. pose proof (isWord_noWhiteSpace name W) as N.
  destruct name as [|c name]; [discriminate W|].
  change (Text.spacesThenLine (" " +:+ String c name +:+ String LF rest))
    with (match Text.spacesThenLine (String c (name +:+ String LF rest)) with
          | Some captured => Some captured
          | None => Some (Text.takeLine (" " +:+ String c name +:+ String LF rest))
          end).
  assert (C : JS.isWhiteSpace c = false).
  { simpl in N. apply andb_prop in N as [C _]. now apply negb_true_iff in C. }
  cbn [Text.spacesThenLine]. rewrite C.
  change (String c (name +:+ String LF rest)) with (String c name +:+ String LF rest).
  now rewrite takeLine_word.
Qed.

Lemma matchHeadBranch_cons (c : ascii) (r : string) :
  Text.matchHeadBranch (String c r)
  = match (if JS.startsWith (String c r) "HEAD branch:"
           then Text.spacesThenLine (JS.drop 12 (String c r)) else None) with
    | Some captured => Some captured
    | None => Text.matchHeadBranch r
    end.
Proof. reflexivity. Qed.

Lemma matchHeadBranch_skip (pre rest : string) :
  occursBefore "HEAD branch:" pre rest = false →
  Text.matchHeadBranch (pre +:+ rest) = Text.matchHeadBranch rest.
Proof.
  induction pre as [|c pre IH]; [reflexivity|].
  cbn [occursBefore]. intros [S O]%orb_false_elim.
  rewrite append_cons, matchHeadBranch_cons.
  rewrite append_cons in S. rewrite S. now apply IH.
Qed.

Lemma matchHeadBranch_line (name post : string) :
  isWord name = true →
  Text.matchHeadBranch ("HEAD branch:" +:+ " " +:+ name +:+ String LF post)
  = Some name.
Proof.
  intros W.
  change ("HEAD branch:" +:+ " " +:+ name +:+ String LF post)
    with (String "H" ("EAD branch:" +:+ " " +:+ name +:+ String LF post)).
  rewrite matchHeadBranch_cons.
  change (String "H" ("EAD branch:" +:+ " " +:+ name +:+ String LF post))
    with ("HEAD branch:" +:+ (" " +:+ name +:+ String LF post)).
  rewrite startsWith_prefix.
  change 12%nat with (String.length "HEAD branch:"). rewrite drop_prefix.
  now rewrite spacesThenLine_word.
Qed.

Lemma append_nil (s : string) : s +:+ "" = s.
Proof. induction s as [|c s IH]; [reflexivity|]. now rewrite append_cons, IH. Qed.

Lemma append_assoc (a b c : string) : (a +:+ b) +:+ c = a +:+ b +:+ c.
Proof. induction a as [|x a IH]; [reflexivity|]. now rewrite !append_cons, IH. Qed.

Lemma trim_word (word : string) : isWord word = true → JS.trim word = word.
Proof.
  intros W. unfold JS.trim.
  rewrite <- (append_nil word) at 1.
  rewrite trimStart_word by exact W. rewrite append_nil.
  now apply trimEnd_noWhiteSpace, isWord_noWhiteSpace.
Qed.

Lemma noWhiteSpace_append (a b : string) :
  noWhiteSpace a = true → noWhiteSpace b = true → noWhiteSpace (a +:+ b) = true.
Proof.
  intros A B. induction a as [|c a IH]; [exact B|].
  simpl in A. apply andb_prop in A as [C A].
  rewrite append_cons. simpl. now rewrite C, IH.
Qed.

Lemma isWord_append (a b : string) :
  isWord a = true → noWhiteSpace b = true → isWord (a +:+ b) = true.
Proof.
  intros A B. unfold isWord.
  rewrite noWhiteSpace_append by (auto using isWord_noWhiteSpace).
  destruct a; [discriminate A | reflexivity].
Qed.

Lemma trim_word_line (word : string) :
  isWord word = true → JS.trim (word +:+ String LF "") = word.
Proof.
  intros W. unfold JS.trim. rewrite trimStart_word by exact W.
  now apply trimEnd_word_line.
Qed.

Lemma split_append_sep (sep : ascii) (a b : string) :
  JS.split sep (a +:+ String sep b) = JS.split sep a ++ JS.split sep b.
Proof.
  induction a as [|c a IH]; [simpl; now rewrite Ascii.eqb_refl|].
  rewrite append_cons. simpl. destruct (Ascii.eqb c sep); rewrite IH.
  - reflexivity.
  - pose proof (split_nonempty sep a) as N.
    now destruct (JS.split sep a).
Qed.

Section DefaultBranch.
Context `{H : Host}.

(** [detectDefaultBranch] throws nothing but a no-such-remote error: any
    other rejection, at the inspection of the remote or in the fallback, is
    swallowed.  A no-such-remote rejection of the inspection is thrown as it
    is, with nothing else invoked. *)
Theorem detectDefaultBranch_throws_only_missing_remote
    (remote : option string) (s : St) :
  (∀ e, fst (detectDefaultBranch remote s) = Throw e → isNoSuchRemote e = true) ∧
  (∀ e w, exec (Raw ["remote"; "show"; default "origin" remote]) (world s) = (inl e, w) →
          isNoSuchRemote e = true →
          detectDefaultBranch remote s
          = (Throw e, after s (Raw ["remote"; "show"; default "origin" remote]) false w)).
Proof.
  split.
  - intros e. unfold detectDefaultBranch. run_monad.
    answer.
    + destruct (isNoSuchRemote e0) eqn:N; simpl; [congruence|].
      answer.
      * destruct (isNoSuchRemote e1) eqn:N1; simpl; congruence.
      * answer.
        -- destruct (isNoSuchRemote e1) eqn:N1; simpl; congruence.
        -- destruct (JS.isEmpty (JS.trim r0)); simpl; congruence.
    + destruct (match Text.matchHeadBranch r with
                | Some captured => if JS.truthy captured then Some captured else None
                | None => None
                end); simpl; [congruence|].
      answer.
      * destruct (isNoSuchRemote e0) eqn:N1; simpl; congruence.
      * answer.
        -- destruct (isNoSuchRemote e0) eqn:N1; simpl; congruence.
        -- destruct (JS.isEmpty (JS.trim r1)); simpl; congruence.
  - intros e w E N. unfold detectDefaultBranch. run_monad.
    rewrite E. simpl. now rewrite N.
Qed.

(** The default branch is read off the [HEAD branch:] line that
    [git remote show] prints: when that line is the first place the marker
    occurs, the branch named on it is the answer and nothing else is
    invoked. *)
Theorem detectDefaultBranch_reads_head_line
    (remote : option string) (s : St) (before name after_ : string) (w : World) :
  isWord name = true →
  occursBefore "HEAD branch:" before
    ("HEAD branch:" +:+ " " +:+ name +:+ String LF after_) = false →
  exec (Raw ["remote"; "show"; default "origin" remote]) (world s)
  = (inr (before +:+ "HEAD branch:" +:+ " " +:+ name +:+ String LF after_), w) →
  detectDefaultBranch remote s
  = (Ok (Some name), after s (Raw ["remote"; "show"; default "origin" remote]) true w).
Proof.
  intros W O E. unfold detectDefaultBranch. run_monad. rewrite E. simpl.
  rewrite (matchHeadBranch_skip _ _ O), (matchHeadBranch_line name after_ W).
  assert (T : JS.truthy name = true) by (now destruct name).
  rewrite T. simpl. now rewrite (trim_word name W).
Qed.

(** When the inspection of the remote fails for another reason than a
    missing remote, the answer comes from the remote's symbolic [HEAD]: of
    the ref it points to, [refs/remotes/<remote>/<branch>], the last path
    segment is answered, which is the branch only when its name has no
    separator. *)
Theorem detectDefaultBranch_fallback_last_segment
    (remote : option string) (s : St) (e out branch : string) (w1 w2 w3 : World) :
  let name := default "origin" remote in
  isWord name = true → isWord branch = true →
  isNoSuchRemote e = false →
  exec (Raw ["remote"; "show"; name]) (world s) = (inl e, w1) →
  exec (Raw ["remote"; "set-head"; name; "--auto"]) w1 = (inr out, w2) →
  exec (Raw ["symbolic-ref"; "refs/remotes/" +:+ name +:+ "/HEAD"]) w2
  = (inr ("refs/remotes/" +:+ name +:+ String "/" branch +:+ String LF ""), w3) →
  fst (detectDefaultBranch remote s) = Ok (last (JS.split "/" branch)).
Proof.
  intros name Wn Wb N E1 E2 E3. unfold detectDefaultBranch. fold name. run_monad.
  rewrite E1. simpl. rewrite N. simpl. rewrite E2. simpl. rewrite E3.
  cbv beta iota zeta.
  assert (W : isWord ("refs/remotes/" +:+ name +:+ String "/" branch) = true).
  { apply (isWord_append "refs/remotes/"); [reflexivity|].
    apply noWhiteSpace_append; [now apply isWord_noWhiteSpace|].
    simpl. now apply isWord_noWhiteSpace. }
  assert (A : ("refs/remotes/" +:+ name +:+ String "/" branch +:+ String LF "")
              = (("refs/remotes/" +:+ name +:+ String "/" branch) +:+ String LF "")).
  { now rewrite !append_assoc. }
  rewrite A, (trim_word_line _ W).
  rewrite (isWord_nonempty _ W). cbn [fst].
  assert (B : "refs/remotes/" +:+ name +:+ String "/" branch
              = ("refs/remotes/" +:+ name) +:+ String "/" branch).
  { now rewrite append_assoc. }
  rewrite B, split_append_sep, last_app.
  pose proof (split_nonempty "/" branch) as NE.
  destruct (last (JS.split "/" branch)) eqn:L; [reflexivity|].
  apply last_None in L. contradiction.
Qed.

End DefaultBranch.

(** A missing remote is reported; any other failure is not. *)
Lemma detectDefaultBranch_throws_only_missing_remote_witness :
  let missing := [(Raw ["remote"; "show"; "origin"],
                   inl "fatal: No such remote 'origin'")] in
  let broken := [(Raw ["remote"; "show"; "origin"], inl "fatal: unable to access");
                 (Raw ["remote"; "set-head"; "origin"; "--auto"],
                  inl "error: Cannot determine remote HEAD")] in
  fst (detectDefaultBranch None (Scripted.start missing))
  = Throw "fatal: No such remote 'origin'" ∧
  isNoSuchRemote "fatal: No such remote 'origin'" = true ∧
  fst (detectDefaultBranch None (Scripted.start broken)) = Ok None.
Proof.
  intros missing broken.
  destruct (detectDefaultBranch_throws_only_missing_remote None
              (Scripted.start missing)) as [only thrown].
  pose proof (thrown "fatal: No such remote 'origin'" [] eq_refl eq_refl) as T.
  split; [now rewrite T|]. split; [|reflexivity].
  apply only. now rewrite T.
Defined.

(** What [git remote show origin] prints for a remote whose default branch
    is [main]. *)
Lemma detectDefaultBranch_reads_head_line_witness :
  let before := "* remote origin" +:+ String LF
                "  Fetch URL: git@example.com:HEAD/branch.git" +:+ String LF "  " in
  let after_ := "  Remote branches:" +:+ String LF "    main tracked" +:+ String LF "" in
  let printed := before +:+ "HEAD branch:" +:+ " " +:+ "main" +:+ String LF after_ in
  fst (detectDefaultBranch None
         (Scripted.start [(Raw ["remote"; "show"; "origin"],
                           inr (Scripted.Printed printed))]))
  = Ok (Some "main").
Proof.
  intros before after_ printed.
  rewrite (detectDefaultBranch_reads_head_line None
             (Scripted.start [(Raw ["remote"; "show"; "origin"],
                               inr (Scripted.Printed printed))])
             before "main" after_ [] eq_refl eq_refl eq_refl).
  reflexivity.
Defined.

(** A remote whose default branch is [release/next]: the fallback answers
    [next]. *)
Lemma detectDefaultBranch_fallback_last_segment_witness :
  fst (detectDefaultBranch (Some "upstream")
         (Scripted.start
            [(Raw ["remote"; "show"; "upstream"], inl "fatal: unable to access");
             (Raw ["remote"; "set-head"; "upstream"; "--auto"],
              inr (Scripted.Printed ""));
             (Raw ["symbolic-ref"; "refs/remotes/upstream/HEAD"],
              inr (Scripted.Printed
                     ("refs/remotes/upstream/release/next" +:+ String LF "")))]))
  = Ok (Some "next").
Proof.
  eapply (detectDefaultBranch_fallback_last_segment (Some "upstream")
            _ "fatal: unable to access" "" "release/next"); reflexivity.
Defined.

(** ** The automatic stash *)

Lemma find_split {A} (p : A → bool) (l : list A) (x : A) :
  List.find p l = Some x →
  ∃ earlier later, l = earlier ++ x :: later ∧
                   Forall (λ y, p y = false) earlier ∧ p x = true.
Proof.
  induction l as [|y l IH]; [discriminate|]. simpl.
  destruct (p y) eqn:P.
  - intros [= <-]. exists [], l. auto.
  - intros F. destruct (IH F) as (earlier & later & -> & E & X).
    exists (y :: earlier), later. auto.
Qed.

Lemma find_none_Forall {A} (p : A → bool) (l : list A) :
  List.find p l = None ↔ Forall (λ y, p y = false) l.
Proof.
  induction l as [|y l IH]; simpl; [split; auto|].
  destruct (p y) eqn:P; split.
  - discriminate.
  - intros F. inversion F; congruence.
  - intros F. constructor; [exact P | now apply IH].
  - intros F. inversion F. now apply IH.
Qed.

(** The first piece of a split, and what follows it. *)
Lemma split_first (sep : ascii) (s h : string) (t : list string) :
  JS.split sep s = h :: t →
  every (isNot sep) h = true ∧
  ∃ rest, s = h +:+ rest ∧ (rest = "" ∨ JS.startsWith rest (String sep "") = true).
Proof.
  intros E. pose proof (join_split sep s) as J. pose proof (split_pieces sep s) as P.
  rewrite E in J, P. split; [now inversion P|].
  destruct t as [|x t].
  - exists "". simpl in J. rewrite append_nil. auto.
  - exists (String sep "" +:+ JS.join (String sep "") (x :: t)).
    split; [symmetry; exact J|].
    right. rewrite append_cons. cbn [JS.startsWith].
    rewrite Ascii.eqb_refl. now destruct (_ +:+ _).
Qed.

Section Autostash.
Context `{H : Host}.

Lemma stashLabel_nonempty (line : string) :
  JS.includes line stashLabel = true → line ≠ "".
Proof. intros I ->. discriminate I. Qed.

(** After a successful stash, [startAutostash] answers nothing exactly when
    no listed stash mentions the label of this process; otherwise it
    answers the start, up to the first blank, of the first listed line that
    mentions the label, which is never empty. *)
Theorem startAutostash_first_labelled (s : St) (out list : string) (w1 w2 : World) :
  exec (Raw ["stash"; "push"; "-u"; "-m"; stashLabel]) (world s) = (inr out, w1) →
  exec (Raw ["stash"; "list"; "--format=%gd %gs"]) w1 = (inr list, w2) →
  let lines := JS.trim <$> JS.split LF list in
  (fst (startAutostash s) = Ok None
   ↔ Forall (λ l, JS.includes l stashLabel = false) lines) ∧
  (∀ ref, fst (startAutostash s) = Ok (Some ref) →
     ref ≠ "" ∧ every (isNot " ") ref = true ∧
     ∃ earlier line later rest,
       lines = earlier ++ line :: later ∧
       Forall (λ l, JS.includes l stashLabel = false) earlier ∧
       JS.includes line stashLabel = true ∧
       line = ref +:+ rest ∧ (rest = "" ∨ JS.startsWith rest " " = true)).
Proof.
  intros E1 E2 lines. unfold startAutostash. run_monad.
  rewrite E1. simpl. rewrite E2. cbv beta iota zeta. fold lines.
  destruct (List.find (λ l, JS.includes l stashLabel) lines) as [line|] eqn:F.
  - destruct (find_split _ _ _ F) as (earlier & later & L & N & I).
    assert (C : startsClean line = true).
    { assert (M : line ∈ lines) by (rewrite L; apply elem_of_app; right; apply list_elem_of_here).
      apply list_elem_of_fmap in M as (raw & -> & _). apply trim_startsClean. }
    pose proof (stashLabel_nonempty line I) as NE.
    destruct line as [|c line]; [contradiction|]. cbn [JS.isEmpty].
    pose proof (split_nonempty " " (String c line)) as SN.
    destruct (JS.split " " (String c line)) as [|h t] eqn:S; [contradiction|].
    destruct (split_first " " _ _ _ S) as (P & rest & R & T).
    assert (Hh : h ≠ "").
    { intros ->. rewrite append_empty in R. destruct T as [->|T]; [discriminate R|].
      rewrite <- R in T. cbn [JS.startsWith] in T.
      destruct (Ascii.eqb " " c) eqn:Q; [|discriminate T].
      apply Ascii.eqb_eq in Q. subst c. discriminate C. }
    assert (Th : JS.truthy h = true) by (now apply truthy_nonempty).
    cbn [lookup list_lookup fst]. rewrite Th. split.
    + split; [discriminate|]. intros A. exfalso.
      rewrite L in A. apply Forall_app in A as [_ A]. inversion A. congruence.
    + intros ref [= <-]. split; [exact Hh|]. split; [exact P|].
      exists earlier, (String c line), later, rest. auto.
  - split.
    + split; [|reflexivity]. intros _. now apply find_none_Forall.
    + discriminate.
Qed.

End Autostash.

(** Two stashes listed, the second one of this process. *)
Lemma startAutostash_first_labelled_witness :
  let s := Scripted.start
             [(Raw ["stash"; "push"; "-u"; "-m"; "agrb-4242"],
               inr (Scripted.Printed "Saved working directory"));
              (Raw ["stash"; "list"; "--format=%gd %gs"],
               inr (Scripted.Printed
                      ("stash@{0} On main: unrelated" +:+ String LF
                       "stash@{1} On feature: agrb-4242" +:+ String LF "")))] in
  fst (startAutostash s) = Ok (Some "stash@{1}") ∧
  every (isNot " ") "stash@{1}" = true.
Proof.
  intros s. split; [reflexivity|].
  destruct (startAutostash_first_labelled s _ _ _ _ eq_refl eq_refl) as [_ some].
  now destruct (some "stash@{1}" eq_refl) as (_ & P & _).
Defined.

(** ** The search filter *)

Lemma toLowerChar_whiteSpace (c : ascii) :
  JS.isWhiteSpace (Text.toLowerChar c) = JS.isWhiteSpace c.
Proof. destruct c as [[] [] [] [] [] [] [] []]; reflexivity. Qed.

Lemma toLowerChar_idempotent (c : ascii) :
  Text.toLowerChar (Text.toLowerChar c) = Text.toLowerChar c.
Proof. destruct c as [[] [] [] [] [] [] [] []]; reflexivity. Qed.

Lemma toLowerCase_idempotent (s : string) :
  Text.toLowerCase (Text.toLowerCase s) = Text.toLowerCase s.
Proof.
  induction s as [|c s IH]; [reflexivity|]. simpl.
  now rewrite toLowerChar_idempotent, IH.
Qed.

Lemma toLowerCase_append (a b : string) :
  Text.toLowerCase (a +:+ b) = Text.toLowerCase a +:+ Text.toLowerCase b.
Proof.
  induction a as [|c a IH]; [reflexivity|].
  rewrite append_cons. simpl. now rewrite IH, append_cons.
Qed.

Lemma toLowerCase_every_whiteSpace (s : string) :
  every JS.isWhiteSpace (Text.toLowerCase s) = every JS.isWhiteSpace s.
Proof.
  induction s as [|c s IH]; [reflexivity|]. simpl.
  now rewrite toLowerChar_whiteSpace, IH.
Qed.

Lemma trimEnd_empty (s : string) :
  JS.trimEnd s = "" → every JS.isWhiteSpace s = true.
Proof.
  induction s as [|c s IH]; [reflexivity|]. simpl.
  destruct (JS.isEmpty (JS.trimEnd s) && JS.isWhiteSpace c) eqn:E; [|discriminate].
  intros _. apply andb_prop in E as [E W]. rewrite W. simpl.
  apply IH. now apply isEmpty_true.
Qed.

Lemma every_whiteSpace_trimStart (s : string) :
  every JS.isWhiteSpace (JS.trimStart s) = true → every JS.isWhiteSpace s = true.
Proof.
  induction s as [|c s IH]; [reflexivity|]. simpl.
  destruct (JS.isWhiteSpace c) eqn:W; [exact IH|]. simpl. now rewrite W.
Qed.

Lemma every_whiteSpace_trim (s : string) :
  every JS.isWhiteSpace s = true → JS.trim s = "".
Proof.
  intros E. unfold JS.trim.
  assert (T : JS.trimStart s = "").
  { induction s as [|c s IH]; [reflexivity|]. simpl in *.
    apply andb_prop in E as [W E]. rewrite W. now apply IH. }
  now rewrite T.
Qed.

(** A string trims to nothing exactly when it is all white space. *)
Lemma trim_empty (s : string) :
  JS.trim s = "" ↔ every JS.isWhiteSpace s = true.
Proof.
  split; [|apply every_whiteSpace_trim].
  intros T. now apply every_whiteSpace_trimStart, trimEnd_empty.
Qed.

Lemma splitWhiteSpace_pieces (s : string) :
  Text.splitWhiteSpaceFrom false s = firstPiece s :: otherPieces s.
Proof.
  unfold firstPiece, otherPieces.
  destruct s as [|c s]; [reflexivity|]. simpl.
  destruct (JS.isWhiteSpace c); [reflexivity|].
  now destruct (Text.splitWhiteSpaceFrom false s).
Qed.

(** Whether a run of white space was under way does not change the
    non-empty pieces. *)
Lemma splitWhiteSpaceFrom_terms (s : string) :
  List.filter nonEmpty (Text.splitWhiteSpaceFrom true s)
  = List.filter nonEmpty (Text.splitWhiteSpaceFrom false s).
Proof.
  destruct s as [|c s]; [reflexivity|]. simpl.
  now destruct (JS.isWhiteSpace c).
Qed.

Lemma firstPiece_cons (c : ascii) (s : string) :
  firstPiece (String c s)
  = if JS.isWhiteSpace c then "" else String c (firstPiece s).
Proof.
  unfold firstPiece. simpl. destruct (JS.isWhiteSpace c); [reflexivity|].
  now destruct (Text.splitWhiteSpaceFrom false s).
Qed.

Lemma otherPieces_cons (c : ascii) (s : string) :
  otherPieces (String c s)
  = if JS.isWhiteSpace c then Text.splitWhiteSpaceFrom true s else otherPieces s.
Proof.
  unfold otherPieces. simpl. destruct (JS.isWhiteSpace c); [reflexivity|].
  now destruct (Text.splitWhiteSpaceFrom false s).
Qed.

Lemma firstPiece_append (a b : string) :
  firstPiece (a +:+ " " +:+ b) = firstPiece a.
Proof.
  induction a as [|c a IH]; [reflexivity|].
  rewrite append_cons, !firstPiece_cons. now rewrite IH.
Qed.

Lemma terms_pieces (s : string) :
  List.filter nonEmpty (Text.splitWhiteSpaceFrom false s)
  = List.filter nonEmpty [firstPiece s] ++ List.filter nonEmpty (otherPieces s).
Proof. rewrite splitWhiteSpace_pieces. simpl. now destruct (nonEmpty (firstPiece s)). Qed.

Lemma otherPieces_append (a b : string) :
  List.filter nonEmpty (otherPieces (a +:+ " " +:+ b))
  = List.filter nonEmpty (otherPieces a)
    ++ List.filter nonEmpty (Text.splitWhiteSpaceFrom false b).
Proof.
  induction a as [|c a IH].
  - rewrite append_empty. change (" " +:+ b) with (String " " b).
    rewrite otherPieces_cons. simpl. apply splitWhiteSpaceFrom_terms.
  - rewrite append_cons, !otherPieces_cons.
    destruct (JS.isWhiteSpace c); [|exact IH].
    rewrite !splitWhiteSpaceFrom_terms, (terms_pieces (a +:+ " " +:+ b)), IH.
    rewrite firstPiece_append, (terms_pieces a). now rewrite app_assoc.
Qed.

(** The words of two terms put side by side are the words of the first
    followed by the words of the second. *)
Lemma searchTerms_append (a b : string) :
  searchTerms (a +:+ " " +:+ b) = searchTerms a ++ searchTerms b.
Proof.
  unfold searchTerms, Text.splitWhiteSpace. fold nonEmpty.
  rewrite !toLowerCase_append.
  change (Text.toLowerCase " ") with " ".
  rewrite (terms_pieces (_ +:+ " " +:+ _)), firstPiece_append, otherPieces_append.
  rewrite (terms_pieces (Text.toLowerCase a)). now rewrite app_assoc.
Qed.

Lemma splitWhiteSpaceFrom_blank (inRun : bool) (s : string) :
  every JS.isWhiteSpace s = true →
  List.filter nonEmpty (Text.splitWhiteSpaceFrom inRun s) = [].
Proof.
  revert inRun. induction s as [|c s IH]; intros inRun; [reflexivity|].
  simpl. intros [W E]%andb_prop. rewrite W.
  destruct inRun; simpl; now apply IH.
Qed.

Lemma searchTerms_blank (searchTerm : string) :
  JS.trim searchTerm = "" → searchTerms searchTerm = [].
Proof.
  intros T. apply trim_empty in T. unfold searchTerms, Text.splitWhiteSpace.
  apply splitWhiteSpaceFrom_blank. now rewrite toLowerCase_every_whiteSpace.
Qed.

Lemma filter_all {A} (p : A → bool) (l : list A) :
  (∀ x, p x = true) → List.filter p l = l.
Proof.
  intros P. induction l as [|x l IH]; [reflexivity|]. simpl. now rewrite P, IH.
Qed.

(** The filter in one piece: the items that match every word of the
    term. *)
Lemma useSearchFilter_terms (items : list (gmap string FieldValue))
    (searchTerm : string) (searchableFields : list string) :
  useSearchFilter items searchTerm searchableFields
  = List.filter (itemMatches searchableFields (searchTerms searchTerm)) items.
Proof.
  unfold useSearchFilter.
  destruct (JS.truthy (JS.trim searchTerm)) eqn:T; simpl.
  - destruct (searchTerms searchTerm) as [|t ts] eqn:E; simpl; [|reflexivity].
    symmetry. now apply filter_all.
  - assert (B : JS.trim searchTerm = "") by (now destruct (JS.trim searchTerm)).
    rewrite (searchTerms_blank _ B). symmetry. now apply filter_all.
Qed.

Lemma filter_filter_both {A} (p q : A → bool) (l : list A) :
  List.filter q (List.filter p l) = List.filter (λ x, p x && q x) l.
Proof.
  induction l as [|x l IH]; [reflexivity|]. simpl.
  destruct (p x); simpl; [destruct (q x)|]; now rewrite IH.
Qed.

(** A search for two terms side by side narrows the search for the first
    by the second, and the order of the two does not matter. *)
Theorem useSearchFilter_narrows (items : list (gmap string FieldValue))
    (first second : string) (searchableFields : list string) :
  useSearchFilter items (first +:+ " " +:+ second) searchableFields
  = useSearchFilter (useSearchFilter items first searchableFields)
                    second searchableFields ∧
  useSearchFilter items (first +:+ " " +:+ second) searchableFields
  = useSearchFilter items (second +:+ " " +:+ first) searchableFields.
Proof.
  rewrite !useSearchFilter_terms, !searchTerms_append, filter_filter_both.
  split; apply List.filter_ext; intros item; unfold itemMatches;
    rewrite !forallb_app; [reflexivity | apply andb_comm].
Qed.

(** The search ignores the case of the term: two terms with the same lower
    case select the same items, and so does a term and its lower case. *)
Theorem useSearchFilter_ignores_case (items : list (gmap string FieldValue))
    (term other : string) (searchableFields : list string) :
  Text.toLowerCase term = Text.toLowerCase other →
  useSearchFilter items term searchableFields
  = useSearchFilter items other searchableFields ∧
  useSearchFilter items (Text.toLowerCase term) searchableFields
  = useSearchFilter items term searchableFields.
Proof.
  intros E. rewrite !useSearchFilter_terms. unfold searchTerms.
  now rewrite toLowerCase_idempotent, E.
Qed.

(** A term of white space only, the empty one included, selects every
    item. *)
Theorem useSearchFilter_blank (items : list (gmap string FieldValue))
    (searchTerm : string) (searchableFields : list string) :
  every JS.isWhiteSpace searchTerm = true →
  useSearchFilter items searchTerm searchableFields = items.
Proof.
  intros B. apply trim_empty in B. unfold useSearchFilter. now rewrite B.
Qed.

(** Three branches by name and author; [LOGIN] and [login] select the
    same one, and a blank term selects all. *)
Lemma useSearchFilter_ignores_case_witness :
  let items : list (gmap string FieldValue) :=
    [{[ "name" := VString "Feature/Login"; "author" := VString "kim"; "ahead" := VNumber 2 ]};
     {[ "name" := VString "main"; "author" := VString "Lee" ]};
     {[ "name" := VString "fix/logout"; "author" := VNull ]}] in
  useSearchFilter items "LOGIN" ["name"; "author"]
  = useSearchFilter items "login" ["name"; "author"] ∧
  useSearchFilter items "login" ["name"; "author"]
  = [{[ "name" := VString "Feature/Login"; "author" := VString "kim"; "ahead" := VNumber 2 ]}].
Proof.
  intros items. split.
  - exact (proj1 (useSearchFilter_ignores_case items "LOGIN" "login"
                    ["name"; "author"] eq_refl)).
  - vm_compute. reflexivity.
Defined.

Lemma useSearchFilter_blank_witness :
  let items : list (gmap string FieldValue) :=
    [{[ "name" := VString "main" ]}; {[ "name" := VString "dev" ]}] in
  useSearchFilter items "   " ["name"] = items.
Proof.
  intros items. exact (useSearchFilter_blank items "   " ["name"] eq_refl).
Defined.

(** ** Patterns between slashes *)

Lemma lastIndexOf_absent (c : ascii) (s : string) :
  every (isNot c) s = true → Text.lastIndexOf c s = None.
Proof.
  induction s as [|a s IH]; [reflexivity|]. simpl.
  intros [A E]%andb_prop. rewrite (IH E).
  unfold isNot in A. now destruct (Ascii.eqb a c).
Qed.

Lemma lastIndexOf_last (c : ascii) (a b : string) :
  every (isNot c) b = true →
  Text.lastIndexOf c (a +:+ String c b) = Some (String.length a).
Proof.
  intros E. induction a as [|x a IH].
  - rewrite append_empty. simpl. now rewrite (lastIndexOf_absent c b E), Ascii.eqb_refl.
  - rewrite append_cons. simpl. now rewrite IH.
Qed.

Lemma take_prefix (a b : string) : Text.take (String.length a) (a +:+ b) = a.
Proof.
  induction a as [|x a IH]; [now destruct b|].
  rewrite append_cons. simpl. now rewrite IH.
Qed.

Section Patterns.
Variable RegExp_test : string → string → string → option bool.

(** A pattern of the form [/source/flags] is handed to the engine split at
    its last slash: the source is everything between the first and the last
    slash, slashes included, the flags are what follows, and a source or
    flags the engine refuses give no match. *)
Theorem matchPattern_between_slashes (text source flags : string) :
  every (isNot "/") flags = true →
  matchPattern RegExp_test text ("/" +:+ source +:+ "/" +:+ flags)
  = default false (RegExp_test source flags text).
Proof.
  intros F. unfold matchPattern.
  assert (L : Text.lastIndexOf "/" ("/" +:+ source +:+ "/" +:+ flags)
              = Some (S (String.length source))).
  { change ("/" +:+ source +:+ "/" +:+ flags)
      with (String "/" source +:+ String "/" flags).
    now rewrite lastIndexOf_last. }
  rewrite L.
  change ("/" +:+ source +:+ "/" +:+ flags)
    with (String "/" (source +:+ String "/" flags)).
  assert (S0 : JS.startsWith (String "/" (source +:+ String "/" flags)) "/" = true).
  { cbn [JS.startsWith]. now destruct (source +:+ String "/" flags). }
  rewrite S0. cbn [andb Nat.ltb Nat.leb].
  assert (D : ∀ a, JS.drop (S (String.length a)) (a +:+ String "/" flags) = flags).
  { clear. induction a as [|x a IH]; [reflexivity|].
    rewrite append_cons. exact IH. }
  change (JS.drop (S (S (String.length source)))
            (String "/" (source +:+ String "/" flags)))
    with (JS.drop (S (String.length source)) (source +:+ String "/" flags)).
  rewrite D.
  change (Text.slice 1 (S (String.length source))
            (String "/" (source +:+ String "/" flags)))
    with (Text.take (String.length source - 0) (source +:+ String "/" flags)).
  rewrite Nat.sub_0_r, take_prefix.
  now destruct (RegExp_test source flags text).
Qed.

(** A pattern that does not start with a slash, or has no slash after its
    first character, is compared literally: it matches exactly itself. *)
Theorem matchPattern_literal (text pattern : string) :
  JS.startsWith pattern "/" = false ∨
  every (isNot "/") (JS.drop 1 pattern) = true →
  (matchPattern RegExp_test text pattern = true ↔ text = pattern).
Proof.
  intros P. unfold matchPattern.
  assert (L : JS.startsWith pattern "/" &&
              match Text.lastIndexOf "/" pattern with
              | Some last => (0 <? last)%nat
              | None => false
              end = false).
  { destruct P as [P|P]; [now rewrite P|].
    destruct pattern as [|c pattern]; [reflexivity|]. simpl in P. simpl.
    rewrite (lastIndexOf_absent "/" pattern P).
    destruct (Ascii.eqb c "/"); [apply andb_false_r | apply andb_false_r]. }
  rewrite L. apply String.eqb_eq.
Qed.

End Patterns.

(** An engine that knows the source [feat] only, with or without the flag
    [i]. *)
Lemma matchPattern_between_slashes_witness :
  let engine source flags text :=
    if String.eqb source "feat"
    then Some (JS.includes (if String.eqb flags "i" then Text.toLowerCase text else text)
                           "feat")
    else None in
  matchPattern engine "FEATURE/x" "/feat/i" = true ∧
  matchPattern engine "FEATURE/x" "/feat/" = false ∧
  matchPattern engine "feature" "/(/" = false.
Proof.
  intros engine. split; [|split].
  - exact (matchPattern_between_slashes engine "FEATURE/x" "feat" "i" eq_refl).
  - exact (matchPattern_between_slashes engine "FEATURE/x" "feat" "" eq_refl).
  - exact (matchPattern_between_slashes engine "feature" "(" "" eq_refl).
Defined.

Lemma matchPattern_literal_witness :
  let engine (source flags text : string) : option bool := Some true in
  matchPattern engine "main" "main" = true ∧
  matchPattern engine "/main" "/main" = true ∧
  matchPattern engine "main" "/main" = false.
Proof.
  intros engine. split; [|split].
  - now apply (matchPattern_literal engine "main" "main"); [left|].
  - now apply (matchPattern_literal engine "/main" "/main"); [right|].
  - destruct (matchPattern engine "main" "/main") eqn:M; [|reflexivity].
    apply (matchPattern_literal engine "main" "/main") in M; [discriminate M|].
    now right.
Defined.

(** ** Configuration files *)

Section ConfigFiles.
Context {V Json : Type}.
Variable homedir : list string.
Variable access : list string → bool.
Variable readFile : list string → Config.JsError + string.
Variable JSON_parse : string → Config.JsError + Json.
Variable validate : Json → Config.JsError + gmap string V.

Lemma findUpFrom_below (name : string) (stop rest : list string) :
  ∀ fuel, (length rest < fuel)%nat →
  ∃ found,
    Config.findUpFrom access fuel name (stop ++ rest) stop = Some found ∧
    match found with
    | Some path =>
        ∃ k, (0 < k ≤ length rest)%nat ∧
             path = stop ++ take k rest ++ [name] ∧
             access path = true ∧
             ∀ j, (k < j ≤ length rest)%nat →
                  access (stop ++ take j rest ++ [name]) = false
    | None =>
        ∀ j, (0 < j ≤ length rest)%nat →
             access (stop ++ take j rest ++ [name]) = false
    end.
Proof.
  induction rest as [|x r IH] using rev_ind; intros [|fuel] F;
    try (simpl in F; lia).
  - exists None. cbn [Config.findUpFrom]. rewrite app_nil_r.
    destruct (decide (stop = stop)); [|done].
    split; [done|]. intros j J. simpl in J. lia.
  - rewrite length_app in F. simpl in F. cbn [Config.findUpFrom].
    destruct (decide (stop ++ r ++ [x] = stop)) as [E|_].
    { apply (f_equal length) in E. rewrite !length_app in E. simpl in E. lia. }
    destruct (access ((stop ++ r ++ [x]) ++ [name])) eqn:A.
    + eexists. split; [done|]. exists (length (r ++ [x])).
      rewrite take_ge by lia. rewrite <- app_assoc in A.
      split; [rewrite length_app; simpl; lia|].
      split; [by rewrite <- app_assoc|]. split; [by rewrite <- app_assoc|].
      intros j J. lia.
    + rewrite (app_assoc stop r [x]), removelast_last.
      destruct (IH fuel ltac:(lia)) as (found & E & N).
      exists found. split; [done|]. rewrite <- !app_assoc in A.
      assert (T : ∀ j, (length r < j)%nat →
                  access (stop ++ take j (r ++ [x]) ++ [name]) = false).
      { intros j J. rewrite take_ge by (rewrite length_app; simpl; lia).
        by rewrite <- app_assoc. }
      destruct found as [path|].
      * destruct N as (k & K & -> & P & N). exists k.
        rewrite take_app_le by lia.
        split; [rewrite length_app; simpl; lia|]. split; [done|]. split; [done|].
        intros j J. destruct (decide (j ≤ length r)%nat).
        -- rewrite take_app_le by lia. apply N. lia.
        -- apply T. lia.
      * intros j J. destruct (decide (j ≤ length r)%nat).
        -- rewrite take_app_le by lia. apply N. lia.
        -- apply T. lia.
Qed.

Lemma findUpFrom_outside (name : string) (stop : list string) :
  ∀ fuel dir,
    (∀ below, dir ≠ stop ++ below) →
    (∀ k, access (take k dir ++ [name]) = false) →
    Config.findUpFrom access fuel name dir stop = None.
Proof.
  induction fuel as [|fuel IH]; [done|]. intros dir O A.
  cbn [Config.findUpFrom].
  destruct (decide (dir = stop)) as [->|_].
  { exfalso. apply (O []). by rewrite app_nil_r. }
  pose proof (A (length dir)) as A'. rewrite take_ge in A' by lia. rewrite A'.
  apply IH.
  - intros below E. destruct dir as [|y d _] using rev_ind.
    + simpl in E. symmetry in E. apply app_eq_nil in E as [-> ->].
      by apply (O []).
    + rewrite removelast_last in E. apply (O (below ++ [y])).
      rewrite E. by rewrite app_assoc.
  - intros k. rewrite removelast_firstn_len, take_take. apply A.
Qed.

(** [findUp] started in or below the parent of the home directory returns,
    after at most one round per directory in between and one more: it
    returns the file of the nearest directory that has one, looking from
    the start directory upwards and never into the parent of the home
    directory itself, and null when none of these directories has the
    file. *)
Theorem findUp_nearest (name : string) (below : list string) (fuel : nat) :
  (length below < fuel)%nat →
  ∃ found,
    Config.findUp homedir access fuel name (removelast homedir ++ below)
    = Some found ∧
    match found with
    | Some path =>
        ∃ k, (0 < k ≤ length below)%nat ∧
             path = removelast homedir ++ take k below ++ [name] ∧
             access path = true ∧
             ∀ j, (k < j ≤ length below)%nat →
                  access (removelast homedir ++ take j below ++ [name]) = false
    | None =>
        ∀ j, (0 < j ≤ length below)%nat →
             access (removelast homedir ++ take j below ++ [name]) = false
    end.
Proof. intros F. unfold Config.findUp. by apply findUpFrom_below. Qed.

(** [findUp] started outside the parent of the home directory never
    returns when no directory from the start up to the root has the file:
    the walk reaches the root and stays there, as the root is its own
    parent and is not the directory the loop stops at. *)
Theorem findUp_outside_never_returns (name : string) (startDir : list string) :
  (∀ below, startDir ≠ removelast homedir ++ below) →
  (∀ k, access (take k startDir ++ [name]) = false) →
  ∀ fuel, Config.findUp homedir access fuel name startDir = None.
Proof. intros O A fuel. unfold Config.findUp. by apply findUpFrom_outside. Qed.

(** [loadConfig] merges three layers key by key: a key takes its value
    from the local file when that has it, else from the global file when
    that has it, else from the defaults, and [sources] names exactly that
    layer; a key of no layer is in neither the configuration nor the
    sources. *)
Theorem loadConfig_layers (fuel : nat) (toolName configFile localConfigFile : string)
    (defaultConfig : gmap string V) (cwd : list string)
    (globalConfig localConfig : option (gmap string V))
    (localConfigPath : option (list string)) :
  Config.readConfigFile readFile JSON_parse validate
    (homedir ++ [".config"; toolName; configFile]) = Ok globalConfig →
  Config.findUp homedir access fuel localConfigFile cwd = Some localConfigPath →
  match localConfigPath with
  | Some path => Config.readConfigFile readFile JSON_parse validate path
  | None => Ok None
  end = Ok localConfig →
  ∃ r,
    Config.loadConfig homedir access readFile JSON_parse validate fuel
      toolName configFile localConfigFile defaultConfig cwd = Some (Ok r) ∧
    ∀ key,
      (Config.sources r !! key, Config.config r !! key) =
      match layer localConfig key, layer globalConfig key, defaultConfig !! key with
      | Some v, _, _ => (Some Config.local, Some v)
      | None, Some v, _ => (Some Config.global, Some v)
      | None, None, Some v => (Some Config.default_, Some v)
      | None, None, None => (None, None)
      end.
Proof.
  intros G P L. unfold Config.loadConfig. rewrite G, P, L.
  eexists. split; [reflexivity|]. intros key.
  cbn [Config.config Config.sources].
  rewrite map_lookup_imap, !lookup_union. unfold Config.sourceOf, layer.
  destruct localConfig as [l|], globalConfig as [g|];
    cbn [from_option id mbind option_bind]; rewrite ?lookup_empty;
    repeat match goal with
           | |- context [?m !! key] =>
               is_var m; let E := fresh "E" in destruct (m !! key) eqn:E
           end;
    cbn; repeat case_bool_decide; try reflexivity;
    repeat match goal with
           | X : ¬ is_Some (Some _) |- _ => exfalso; apply X; eexists; reflexivity
           | X : is_Some None |- _ => destruct X; discriminate
           end.
Qed.

(** With no global file (reading it fails with code [ENOENT]) and no local
    file found, [loadConfig] returns the defaults as they are, every key
    attributed to the defaults: a missing file is not an error. *)
Theorem loadConfig_defaults_only (fuel : nat)
    (toolName configFile localConfigFile : string)
    (defaultConfig : gmap string V) (cwd : list string) (error : Config.JsError) :
  readFile (homedir ++ [".config"; toolName; configFile]) = inl error →
  Config.err_code error = Some "ENOENT" →
  Config.findUp homedir access fuel localConfigFile cwd = Some None →
  Config.loadConfig homedir access readFile JSON_parse validate fuel
    toolName configFile localConfigFile defaultConfig cwd
  = Some (Ok {| Config.config := defaultConfig;
                Config.sources := (λ _, Config.default_) <$> defaultConfig |}).
Proof.
  intros R C P. unfold Config.loadConfig, Config.readConfigFile, Config.readFailure.
  rewrite R, C, P. rewrite bool_decide_eq_true_2 by done.
  cbn [from_option id]. rewrite !(left_id_L ∅ (∪)).
  do 2 f_equal. f_equal. apply map_eq. intros key.
  rewrite map_lookup_imap, lookup_fmap. unfold Config.sourceOf. cbn.
  destruct (defaultConfig !! key) eqn:E; [|reflexivity]. cbn.
  repeat case_bool_decide; try reflexivity;
    repeat match goal with
           | X : ¬ is_Some (Some _) |- _ => exfalso; apply X; eexists; reflexivity
           | X : is_Some None |- _ => destruct X; discriminate
           end.
Qed.

End ConfigFiles.

(** On the small disk, the search from the repository [/home/kim/work/repo]
    with four rounds. *)
Lemma findUp_nearest_witness :
  ∃ found,
    Config.findUp Disk.homedir Disk.access 4 ".agrc"
      (removelast Disk.homedir ++ ["kim"; "work"; "repo"]) = Some found ∧
    match found with
    | Some path =>
        ∃ k, (0 < k ≤ 3)%nat ∧
             path = removelast Disk.homedir ++ take k ["kim"; "work"; "repo"]
                    ++ [".agrc"] ∧
             Disk.access path = true ∧
             ∀ j, (k < j ≤ 3)%nat →
                  Disk.access (removelast Disk.homedir
                               ++ take j ["kim"; "work"; "repo"] ++ [".agrc"]) = false
    | None =>
        ∀ j, (0 < j ≤ 3)%nat →
             Disk.access (removelast Disk.homedir
                          ++ take j ["kim"; "work"; "repo"] ++ [".agrc"]) = false
    end.
Proof.
  apply (findUp_nearest Disk.homedir Disk.access ".agrc" ["kim"; "work"; "repo"] 4).
  simpl. lia.
Defined.

(** From [/srv/repo], outside [/home], a thousand rounds do not end the
    search. *)
Lemma findUp_outside_never_returns_witness :
  Config.findUp Disk.homedir Disk.access 1000 ".agrc" ["srv"; "repo"] = None.
Proof.
  apply (findUp_outside_never_returns Disk.homedir Disk.access ".agrc" ["srv"; "repo"]).
  - intros below E. discriminate E.
  - intros [|[|[|k]]]; reflexivity.
Defined.

Lemma loadConfig_layers_witness :
  ∃ r,
    Config.loadConfig Disk.homedir Disk.access Disk.readFile Disk.JSON_parse
      Disk.validate 4 "ag" "config.json" ".agrc" Disk.defaultConfig Disk.cwd
    = Some (Ok r) ∧
    ∀ key,
      (Config.sources r !! key, Config.config r !! key) =
      match layer (Some Disk.localConfig) key, layer (Some Disk.globalConfig) key,
            Disk.defaultConfig !! key with
      | Some v, _, _ => (Some Config.local, Some v)
      | None, Some v, _ => (Some Config.global, Some v)
      | None, None, Some v => (Some Config.default_, Some v)
      | None, None, None => (None, None)
      end.
Proof.
  apply (loadConfig_layers Disk.homedir Disk.access Disk.readFile Disk.JSON_parse
           Disk.validate 4 "ag" "config.json" ".agrc" Disk.defaultConfig Disk.cwd
           (Some Disk.globalConfig) (Some Disk.localConfig)
           (Some ["home"; "kim"; "work"; ".agrc"])); reflexivity.
Defined.

Lemma loadConfig_defaults_only_witness :
  Config.loadConfig ["home"; "lee"] Disk.access Disk.readFile Disk.JSON_parse
    Disk.validate 3 "ag" "config.json" ".agrc" Disk.defaultConfig
    ["home"; "lee"; "src"]
  = Some (Ok {| Config.config := Disk.defaultConfig;
                Config.sources := (λ _, Config.default_) <$> Disk.defaultConfig |}).
Proof.
  apply (loadConfig_defaults_only ["home"; "lee"] Disk.access Disk.readFile
           Disk.JSON_parse Disk.validate 3 "ag" "config.json" ".agrc"
           Disk.defaultConfig ["home"; "lee"; "src"]
           {| Config.err_code := Some "ENOENT";
              Config.err_message := "ENOENT: no such file or directory" |});
    reflexivity.
Defined.

Section LocalConfigFile.
Context {V Json : Type}.
Variable homedir : list string.
Variable access : list string → bool.
Variable readFile : list string → Config.JsError + string.
Variable JSON_parse : string → Config.JsError + Json.
Variable validate : Json → Config.JsError + gmap string V.

(** [loadLocalConfig] started strictly below the parent of the home
    directory returns or throws within one round per directory in between
    and one more, and what it returns tells the truth about the disk: the
    path it names is a file called [localConfigFile], [exists] says whether
    that file is there, a file that is not there comes with no
    configuration and with the path it would have in the start directory,
    and a file that is there comes with what [readConfigFile] reads
    from it. *)
Theorem loadLocalConfig_exists (localConfigFile : string) (below : list string)
    (fuel : nat) :
  below ≠ [] →
  (length below < fuel)%nat →
  ∃ outcome,
    Config.loadLocalConfig homedir access readFile JSON_parse validate fuel
      localConfigFile (removelast homedir ++ below) = Some outcome ∧
    ∀ r, outcome = Ok r →
      last (Config.local_path r) = Some localConfigFile ∧
      Config.local_exists r = access (Config.local_path r) ∧
      if Config.local_exists r
      then Config.readConfigFile readFile JSON_parse validate (Config.local_path r)
           = Ok (Config.local_config r)
      else Config.local_config r = None ∧
           Config.local_path r = (removelast homedir ++ below) ++ [localConfigFile].
Proof.
  intros B F. unfold Config.loadLocalConfig, Config.findLocalConfigPath, Config.findUp.
  destruct (findUpFrom_below access localConfigFile (removelast homedir) below fuel F)
    as (found & E & N).
  rewrite E. destruct found as [path|].
  - destruct N as (k & K & -> & A & _).
    destruct (Config.readConfigFile _ _ _ _) as [read|e] eqn:R.
    + eexists. split; [reflexivity|]. intros r [= <-].
      cbn [Config.local_path Config.local_exists Config.local_config].
      rewrite A. split; [|split; [reflexivity | exact R]].
      by rewrite !app_assoc, last_snoc.
    + eexists. split; [reflexivity|]. intros r [=].
  - eexists. split; [reflexivity|]. intros r [= <-].
    cbn [Config.local_path Config.local_exists Config.local_config].
    split; [by rewrite last_snoc|]. split; [|done].
    pose proof (N (length below)) as N'. rewrite take_ge, app_assoc in N' by lia.
    symmetry. apply N'. destruct below; [done|]. simpl. lia.
Qed.

End LocalConfigFile.

(** From the repository of the small disk the local file is the one of
    [/home/kim/work]. *)
Lemma loadLocalConfig_exists_witness :
  ∃ outcome,
    Config.loadLocalConfig Disk.homedir Disk.access Disk.readFile Disk.JSON_parse
      Disk.validate 4 ".agrc" (removelast Disk.homedir ++ ["kim"; "work"; "repo"])
    = Some outcome ∧
    ∀ r, outcome = Ok r →
      last (Config.local_path r) = Some ".agrc" ∧
      Config.local_exists r = Disk.access (Config.local_path r) ∧
      if Config.local_exists r
      then Config.readConfigFile Disk.readFile Disk.JSON_parse Disk.validate
             (Config.local_path r) = Ok (Config.local_config r)
      else Config.local_config r = None ∧
           Config.local_path r
           = (removelast Disk.homedir ++ ["kim"; "work"; "repo"]) ++ [".agrc"].
Proof.
  apply (loadLocalConfig_exists Disk.homedir Disk.access Disk.readFile
           Disk.JSON_parse Disk.validate ".agrc" ["kim"; "work"; "repo"] 4).
  - discriminate.
  - simpl. lia.
Defined.

(** ** Local branches and rejected names *)

Lemma replaceFirst_absent (p rep s : string) :
  JS.includes s p = false → JS.replaceFirst p rep s = s.
Proof.
  induction s as [|c s IH]; cbn [JS.includes JS.replaceFirst];
    intros [P I]%orb_false_elim; rewrite P; [reflexivity|].
  f_equal. exact (IH I).
Qed.

Section LocalBranches.
Context `{H : Host}.

(** [getLocalBranches] answers one name per listed branch whose name does
    not contain [HEAD], in listing order: a listed name without the marker
    [* ] is answered as it is, and one that starts with the marker is
    answered without it.  A branch with [HEAD] in its name is left out. *)
Theorem getLocalBranches_listed (s : St) (branches : BranchSummary) (w : World) :
  exec (Branch ["-l"]) (world s) = (inr branches, w) →
  ∃ names,
    fst (getLocalBranches s) = Ok names ∧
    Forall2 (λ listed answered,
               (JS.includes listed "* " = false → answered = listed) ∧
               (JS.startsWith listed "* " = true → listed = "* " +:+ answered))
            (filter (λ b, Is_true (negb (JS.includes b "HEAD"))) (all branches))
            names.
Proof.
  intros E. unfold getLocalBranches. run_monad. rewrite E. simpl.
  eexists. split; [reflexivity|].
  induction (filter _ (all branches)) as [|b kept IH]; [constructor|].
  rewrite fmap_cons. constructor; [|exact IH]. split.
  - apply replaceFirst_absent.
  - intros P. rewrite (replaceFirst_prefix "* " b P).
    now apply (startsWith_append b "* ").
Qed.

End LocalBranches.

Lemma getLocalBranches_listed_witness :
  let listing := [(Branch ["-l"],
                   inr (Scripted.Listed ["* main"; "feature/x"; "fix-HEAD"]))] in
  ∃ names,
    fst (getLocalBranches (Scripted.start listing)) = Ok names ∧
    Forall2 (λ listed answered,
               (JS.includes listed "* " = false → answered = listed) ∧
               (JS.startsWith listed "* " = true → listed = "* " +:+ answered))
            ["* main"; "feature/x"] names.
Proof.
  intros listing.
  exact (getLocalBranches_listed (Scripted.start listing)
           {| all := ["* main"; "feature/x"; "fix-HEAD"] |} [] eq_refl).
Defined.

(** The name [feature..branch] is rejected, and no validated operation
    touches the repository for it. *)
Lemma validated_operations_abort_witness :
  let s := Fixture.start Fixture.repo in
  (∀ options, deleteLocalBranch "feature..branch" options s
              = (Throw (InvalidReference "feature..branch"), s)) ∧
  deleteRemoteBranch "origin" "feature..branch" s
  = (Throw (InvalidReference "feature..branch"), s) ∧
  branchExists "feature..branch" s = (Throw (InvalidReference "feature..branch"), s) ∧
  setupCherryPick "feature..branch" s
  = (Throw (InvalidReference "feature..branch"), s) ∧
  getMergeBase "feature..branch" "origin" s
  = (Throw (InvalidReference "feature..branch"), s) ∧
  (@isValidBranchName Fixture.host "origin" = true →
   getMergeBase "origin" "feature..branch" s
   = (Throw (InvalidReference "feature..branch"), s)) ∧
  (∀ current callback options,
     performLinearRebase current "feature..branch" callback options s
     = (Throw (InvalidReference "feature..branch"), s)).
Proof.
  intros s.
  exact (validated_operations_abort "feature..branch" "origin" s eq_refl).
Defined.
